(** * xmldoc: the XML document class, its tree builder and its query layer

    A shallow embedding of [xmldoc.ts] (the TypeScript source of the
    [xmldoc] package) and the properties of it that the specification
    states.

    Conventions of the embedding.
    - A JavaScript string is its sequence of UTF-16 code units, [list N];
      [js "..."] turns an ASCII literal into one.  [text.length] is
      [length], [substring(0, n)] is [take n], [+] is [++].
    - [undefined] and [null] are [None], and where a result can be a value
      of any type it is a [JsValue]; an attribute object, typed
      [Record<string, string>], is the [gmap] of its own properties, and a
      read [attr[name]] that finds no own property goes on to the members
      of [Object.prototype] ([get_property]).
    - An element is a mutable object that the builder reaches through two
      aliases, its parent's [children] array and the [delegates] stack.
      The Document's tree is the store; a reference to an element is its
      path of child indices from the Document ([Ref]), so a write through
      [delegates[0]] is seen from the parent.
    - The lexer ([sax]) is an external collaborator: its run on an input is
      the sequence of events it delivers, each with the position counters
      the parser object holds when the event fires. *)

From Stdlib Require Import NArith String Ascii.
From stdpp Require Import base option list sorting gmap strings.

Local Open Scope N_scope.
Local Open Scope nat_scope.

(** ** JavaScript strings *)

Abbreviation jsstring := (list N).

Definition js (s : string) : jsstring :=
  map N_of_ascii (list_ascii_of_string s).

(** The code units [String.prototype.trim] strips: WhiteSpace and
    LineTerminator of ECMAScript. *)
Definition is_whitespace (c : N) : bool :=
  ((9 <=? c) && (c <=? 13))%N || (c =? 32)%N || (c =? 160)%N
  || (c =? 5760)%N || ((8192 <=? c) && (c <=? 8202))%N
  || (c =? 8232)%N || (c =? 8233)%N || (c =? 8239)%N || (c =? 8287)%N
  || (c =? 12288)%N || (c =? 65279)%N.

Fixpoint trimStart (s : jsstring) : jsstring :=
  match s with
  | c :: s' => if is_whitespace c then trimStart s' else s
  | [] => []
  end.

Definition trimEnd (s : jsstring) : jsstring := rev (trimStart (rev s)).

(** [s.trim()] *)
Definition trim (s : jsstring) : jsstring := trimStart (trimEnd s).

(** [s.replace(/c/g, r)] for a one-character pattern [c]. *)
Definition replaceAll (c : N) (r : jsstring) (s : jsstring) : jsstring :=
  flat_map (λ x, if (x =? c)%N then r else [x]) s.

(** [s.split(sep)] for a one-character separator: never the empty array. *)
Fixpoint split (sep : N) (s : jsstring) : list jsstring :=
  match s with
  | [] => [[]]
  | c :: s' =>
      if (c =? sep)%N then [] :: split sep s'
      else match split sep s' with
           | h :: t => (c :: h) :: t
           | [] => [[c]]
           end
  end.

Definition ch_amp : N := 38%N.
Definition ch_lt : N := 60%N.
Definition ch_gt : N := 62%N.
Definition ch_apos : N := 39%N.
Definition ch_quot : N := 34%N.
Definition ch_dot : N := 46%N.
Definition ch_at : N := 64%N.
(** U+2026, the one code unit of ["…"]. *)
Definition ch_ellipsis : N := 8230%N.

(** [escapeXML]: five global replacements, [&] first. *)
Definition escapeXML (value : jsstring) : jsstring :=
  replaceAll ch_quot (js "&quot;")
    (replaceAll ch_apos (js "&apos;")
       (replaceAll ch_gt (js "&gt;")
          (replaceAll ch_lt (js "&lt;")
             (replaceAll ch_amp (js "&amp;") value)))).

(** ** Formatting options and [formatText] *)

Record XmlStringOptions := {
  compressed : option bool;
  trimmed : option bool;
  preserveWhitespace : option bool;
  html : option bool
}.

(** Truthiness of an optional boolean property read through [options?.p]. *)
Definition truthy_flag (options : option XmlStringOptions)
    (p : XmlStringOptions → option bool) : bool :=
  match options with
  | Some o => match p o with Some b => b | None => false end
  | None => false
  end.

Definition formatText (text : jsstring) (options : option XmlStringOptions)
    : jsstring :=
  let finalText := text in
  let finalText :=
    if truthy_flag options trimmed && (25 <? length text)
    then trim (take 25 finalText) ++ [ch_ellipsis]
    else finalText in
  let finalText :=
    if negb (truthy_flag options preserveWhitespace)
    then trim finalText
    else finalText in
  finalText.

Definition XmlTextNode_toString (text : jsstring)
    (options : option XmlStringOptions) : jsstring :=
  formatText (escapeXML text) options.

Definition XmlCDataNode_toString (cdata : jsstring)
    (options : option XmlStringOptions) : jsstring :=
  js "<![CDATA[" ++ formatText cdata options ++ js "]]>".

Definition XmlCommentNode_toString (comment : jsstring)
    (options : option XmlStringOptions) : jsstring :=
  js "<!--" ++ formatText (escapeXML comment) options ++ js "-->".

(** ** The node model *)

(** [tag] of an open-tag event: [{ name, attributes }]. *)
Record Tag := {
  tag_name : jsstring;
  tag_attributes : gmap (list N) (list N)
}.

(** The position counters of the [SAXParser] object. *)
Record SAXParser := {
  sax_line : N;
  sax_column : N;
  sax_position : N;
  sax_startTagPosition : N
}.

(** The four node classes.  [firstChild] and [lastChild] alias an entry of
    [children]: they hold its index. *)
Inductive XmlNode :=
| XmlElementNode (element : XmlElement)
| XmlTextNode (text : jsstring)
| XmlCDataNode (cdata : jsstring)
| XmlCommentNode (comment : jsstring)
with XmlElement :=
| mkXmlElement
    (name : jsstring)
    (attr : gmap (list N) (list N))
    (val : jsstring)
    (children : list XmlNode)
    (firstChild lastChild : option nat)
    (line column position startTagPosition : option N).

Definition name (e : XmlElement) : jsstring :=
  match e with mkXmlElement n _ _ _ _ _ _ _ _ _ => n end.
Definition attr (e : XmlElement) : gmap (list N) (list N) :=
  match e with mkXmlElement _ a _ _ _ _ _ _ _ _ => a end.
Definition val (e : XmlElement) : jsstring :=
  match e with mkXmlElement _ _ v _ _ _ _ _ _ _ => v end.
Definition children (e : XmlElement) : list XmlNode :=
  match e with mkXmlElement _ _ _ c _ _ _ _ _ _ => c end.
Definition firstChild (e : XmlElement) : option nat :=
  match e with mkXmlElement _ _ _ _ f _ _ _ _ _ => f end.
Definition lastChild (e : XmlElement) : option nat :=
  match e with mkXmlElement _ _ _ _ _ l _ _ _ _ => l end.
Definition line (e : XmlElement) : option N :=
  match e with mkXmlElement _ _ _ _ _ _ l _ _ _ => l end.
Definition column (e : XmlElement) : option N :=
  match e with mkXmlElement _ _ _ _ _ _ _ c _ _ => c end.
Definition position (e : XmlElement) : option N :=
  match e with mkXmlElement _ _ _ _ _ _ _ _ p _ => p end.
Definition startTagPosition (e : XmlElement) : option N :=
  match e with mkXmlElement _ _ _ _ _ _ _ _ _ s => s end.

(** The [type] tag of a node. *)
Inductive NodeType := T_element | T_text | T_cdata | T_comment.

Definition type (n : XmlNode) : NodeType :=
  match n with
  | XmlElementNode _ => T_element
  | XmlTextNode _ => T_text
  | XmlCDataNode _ => T_cdata
  | XmlCommentNode _ => T_comment
  end.

(** Field assignments. *)
Definition set_name_attr (e : XmlElement) (n : jsstring)
    (a : gmap (list N) (list N)) : XmlElement :=
  mkXmlElement n a (val e) (children e) (firstChild e) (lastChild e)
    (line e) (column e) (position e) (startTagPosition e).
Definition set_val (e : XmlElement) (v : jsstring) : XmlElement :=
  mkXmlElement (name e) (attr e) v (children e) (firstChild e) (lastChild e)
    (line e) (column e) (position e) (startTagPosition e).
Definition set_children (e : XmlElement) (c : list XmlNode) : XmlElement :=
  mkXmlElement (name e) (attr e) (val e) c (firstChild e) (lastChild e)
    (line e) (column e) (position e) (startTagPosition e).
Definition set_first_last (e : XmlElement) (f l : option nat) : XmlElement :=
  mkXmlElement (name e) (attr e) (val e) (children e) f l
    (line e) (column e) (position e) (startTagPosition e).

(** [new XmlElement(tag, parser?)] *)
Definition XmlElement_constructor (tag : Tag) (parser : option SAXParser)
    : XmlElement :=
  mkXmlElement (tag_name tag) (tag_attributes tag) [] [] None None
    (sax_line <$> parser) (sax_column <$> parser)
    (sax_position <$> parser) (sax_startTagPosition <$> parser).

(** [this._addChild(child)] *)
Definition _addChild (this : XmlElement) (child : XmlNode) : XmlElement :=
  let i := length (children this) in
  let this := set_children this (children this ++ [child]) in
  let first := match firstChild this with
               | None => Some i
               | Some f => Some f
               end in
  set_first_last this first (Some i).

(** [_text], [_cdata] and [_comment] of [XmlElement]. *)
Definition _text (this : XmlElement) (t : jsstring) : XmlElement :=
  _addChild (set_val this (val this ++ t)) (XmlTextNode t).

Definition _cdata (this : XmlElement) (c : jsstring) : XmlElement :=
  _addChild (set_val this (val this ++ c)) (XmlCDataNode c).

Definition _comment (this : XmlElement) (c : jsstring) : XmlElement :=
  _addChild this (XmlCommentNode c).

(** ** References into the Document's tree *)

(** A reference to an element: the child indices on the way from the
    Document to it; [[]] is the Document itself. *)
Abbreviation Ref := (list nat).

Fixpoint elem_at (r : Ref) (e : XmlElement) : option XmlElement :=
  match r with
  | [] => Some e
  | i :: r' =>
      match children e !! i with
      | Some (XmlElementNode c) => elem_at r' c
      | _ => None
      end
  end.

(** Run a method [f] on the object [r] refers to. *)
Fixpoint update_at (r : Ref) (f : XmlElement → XmlElement) (e : XmlElement)
    : XmlElement :=
  match r with
  | [] => f e
  | i :: r' =>
      match children e !! i with
      | Some (XmlElementNode c) =>
          set_children e
            (<[i := XmlElementNode (update_at r' f c)]> (children e))
      | _ => e
      end
  end.

(** ** The Document and the tree builder *)

(** [XmlDocument extends XmlElement]: the inherited fields are
    [doc_element]; [parser] is the live parser object, present while the
    parser runs. *)
Record XmlDocument := {
  doc_element : XmlElement;
  doctype : jsstring;
  parser : option SAXParser
}.

(** What the constructor can throw, by origin: its own
    [new Error("No XML to parse!")], the error object of a lexer error
    event thrown again by [_error], and the engine's [TypeError] on a
    property read of [undefined]. *)
Inductive JsError :=
| NoXmlToParse
| LexerError (err : jsstring)
| TypeError.

(** [_error]: [throw err] *)
Definition _error (err : jsstring) : JsError := LexerError err.

(** The events of [addParserEvents]. *)
Inductive SaxEvent :=
| OnOpenTag (tag : Tag)
| OnCloseTag
| OnText (t : jsstring)
| OnCData (c : jsstring)
| OnComment (c : jsstring)
| OnDoctype (d : jsstring)
| OnError (err : jsstring).

(** The Document under construction, and the module-level [delegates]
    array, top first. *)
Record Builder := {
  document : XmlDocument;
  delegates : list Ref
}.

Definition on_root (f : XmlElement → XmlElement) (d : XmlDocument)
    : XmlDocument :=
  {| doc_element := f (doc_element d);
     doctype := doctype d;
     parser := parser d |}.

(** Call the method [f] of the element [r] refers to. *)
Definition call (r : Ref) (f : XmlElement → XmlElement) (b : Builder)
    : Builder :=
  {| document := on_root (update_at r f) (document b);
     delegates := delegates b |}.

(** [XmlElement._opentag]: the child is built with no parser argument,
    added to [this], and put on top of [delegates]. *)
Definition XmlElement_opentag (r : Ref) (tag : Tag) (b : Builder) : Builder :=
  match elem_at r (doc_element (document b)) with
  | Some this =>
      let child := XmlElement_constructor tag None in
      let b := call r (λ this, _addChild this (XmlElementNode child)) b in
      {| document := document b;
         delegates := (r ++ [length (children this)]) :: delegates b |}
  | None => b
  end.

(** [XmlDocument._opentag] *)
Definition XmlDocument_opentag (tag : Tag) (b : Builder) : Builder :=
  if decide (name (doc_element (document b)) = [])
  then call [] (λ this, set_name_attr this (tag_name tag)
                          (tag_attributes tag)) b
  else XmlElement_opentag [] tag b.

(** [_opentag] of the object [r] refers to: the Document overrides it. *)
Definition _opentag (r : Ref) (tag : Tag) (b : Builder) : Builder :=
  match r with
  | [] => XmlDocument_opentag tag b
  | _ => XmlElement_opentag r tag b
  end.

(** [_closetag]: [delegates.shift()] *)
Definition _closetag (b : Builder) : Builder :=
  {| document := document b; delegates := tail (delegates b) |}.

(** [XmlDocument._doctype] *)
Definition _doctype (d : jsstring) (b : Builder) : Builder :=
  {| document := {| doc_element := doc_element (document b);
                    doctype := doctype (document b) ++ d;
                    parser := parser (document b) |};
     delegates := delegates b |}.

(** One event through the handlers of [addParserEvents].  All but
    [ondoctype] go through [delegates[0]?.]; [ondoctype] reads
    [doc._doctype] off [delegates[0]] itself. *)
Definition dispatch (ev : SaxEvent) (b : Builder) : JsError + Builder :=
  match ev with
  | OnOpenTag tag =>
      match delegates b with
      | r :: _ => inr (_opentag r tag b)
      | [] => inr b
      end
  | OnCloseTag =>
      match delegates b with
      | _ :: _ => inr (_closetag b)
      | [] => inr b
      end
  | OnText t =>
      match delegates b with
      | r :: _ => inr (call r (λ this, _text this t) b)
      | [] => inr b
      end
  | OnCData c =>
      match delegates b with
      | r :: _ => inr (call r (λ this, _cdata this c) b)
      | [] => inr b
      end
  | OnComment c =>
      match delegates b with
      | r :: _ => inr (call r (λ this, _comment this c) b)
      | [] => inr b
      end
  | OnDoctype d =>
      match delegates b with
      | [] :: _ => inr (_doctype d b)
      | _ :: _ => inr b
      | [] => inl TypeError
      end
  | OnError err =>
      match delegates b with
      | _ :: _ => inl (_error err)
      | [] => inr b
      end
  end.

(** The parser object is the one in [this.parser]: when an event fires its
    counters are the ones the delegates can read there. *)
Definition set_parser (p : option SAXParser) (d : XmlDocument)
    : XmlDocument :=
  {| doc_element := doc_element d; doctype := doctype d; parser := p |}.

Definition fire (pe : SAXParser * SaxEvent) (b : Builder)
    : JsError + Builder :=
  dispatch (snd pe)
    {| document := set_parser (Some (fst pe)) (document b);
       delegates := delegates b |}.

(** [parser.write(xml)] as seen from the builder: the events in order, up
    to the first handler that throws. *)
Fixpoint write (evs : list (SAXParser * SaxEvent)) (b : Builder)
    : JsError + Builder :=
  match evs with
  | [] => inr b
  | pe :: evs' =>
      match fire pe b with
      | inr b' => write evs' b'
      | inl err => inl err
      end
  end.

Section Constructor.

(** The lexer: the parser [sax.parser(true)] returns, and the events its
    [write] delivers for an input. *)
Variable sax_parser : SAXParser.
Variable sax_write : jsstring → list (SAXParser * SaxEvent).

(** The builder as the constructor sets it up before [parser.write]. *)
Definition init_builder : Builder :=
  {| document :=
       {| doc_element :=
            XmlElement_constructor
              {| tag_name := []; tag_attributes := ∅ |} None;
          doctype := [];
          parser := Some sax_parser |};
     delegates := [[]] |}.

(** [new XmlDocument(xml)] *)
Definition XmlDocument_constructor (xml : jsstring) : JsError + XmlDocument :=
  let xml := trim xml in
  if decide (xml = []) then inl NoXmlToParse
  else
    match write (sax_write xml) init_builder with
    | inr b => inr (set_parser None (document b))
    | inl err => inl err
    end.

End Constructor.

(** ** The query layer

    The queries read a tree that is not written to while they run. *)

(** The values an iterator can hand back and a property read can give;
    [JsObject] stands for any object or function. *)
Inductive JsValue :=
| JsUndefined
| JsNull
| JsBoolean (b : bool)
| JsNumber (n : Z)
| JsString (s : jsstring)
| JsObject.

(** [v === false] *)
Definition strict_eq_false (v : JsValue) : bool :=
  match v with
  | JsBoolean false => true
  | _ => false
  end.

(** Truthiness of a value. *)
Definition truthy (v : JsValue) : bool :=
  match v with
  | JsUndefined => false
  | JsNull => false
  | JsBoolean b => b
  | JsNumber n => negb (n =? 0)%Z
  | JsString [] => false
  | JsString (_ :: _) => true
  | JsObject => true
  end.

(** [v === s] for a string [s] *)
Definition strict_eq_string (v : JsValue) (s : jsstring) : bool :=
  match v with
  | JsString t => bool_decide (t = s)
  | _ => false
  end.

(** The property names of [Object.prototype], which every attribute
    object ([{}] of the lexer) inherits; their values are functions, and
    the prototype itself for [__proto__]. *)
Definition Object_prototype : list jsstring :=
  [js "constructor"; js "hasOwnProperty"; js "isPrototypeOf";
   js "propertyIsEnumerable"; js "toLocaleString"; js "toString";
   js "valueOf"; js "__proto__"; js "__defineGetter__";
   js "__defineSetter__"; js "__lookupGetter__"; js "__lookupSetter__"].

(** [obj[name]] on an attribute object: the own property when there is
    one, else the member of [Object.prototype] of that name, else
    [undefined]. *)
Definition get_property (obj : gmap (list N) (list N)) (n : jsstring)
    : JsValue :=
  match obj !! n with
  | Some v => JsString v
  | None =>
      if bool_decide (n ∈ Object_prototype) then JsObject else JsUndefined
  end.

Section EachChild.

(** The iterator is a callback with effects of its own: it runs in a
    state [St], with [context] as its [this]. *)
Context {St Ctx : Type}.
Variable iterator :
  Ctx → XmlElement → nat → list XmlNode → St → JsValue * St.
Variable context : Ctx.

(** The loop of [eachChild] from index [i] on, [rest] being
    [children[i..]]. *)
Fixpoint eachChild_from (array : list XmlNode) (i : nat)
    (rest : list XmlNode) (s : St) : St :=
  match rest with
  | [] => s
  | child :: rest' =>
      match child with
      | XmlElementNode c =>
          let (r, s') := iterator context c i array s in
          if strict_eq_false r then s'
          else eachChild_from array (S i) rest' s'
      | _ => eachChild_from array (S i) rest' s
      end
  end.

Definition eachChild (this : XmlElement) (s : St) : St :=
  eachChild_from (children this) 0 (children this) s.

End EachChild.

Fixpoint childNamed_from (rest : list XmlNode) (n : jsstring)
    : option XmlElement :=
  match rest with
  | [] => None
  | child :: rest' =>
      match child with
      | XmlElementNode c =>
          if decide (name c = n) then Some c else childNamed_from rest' n
      | _ => childNamed_from rest' n
      end
  end.

Definition childNamed (this : XmlElement) (n : jsstring)
    : option XmlElement :=
  childNamed_from (children this) n.

(** The loop of [childrenNamed], [matches] being the array it pushes to. *)
Fixpoint childrenNamed_from (rest : list XmlNode) (n : jsstring)
    (matches : list XmlElement) : list XmlElement :=
  match rest with
  | [] => matches
  | child :: rest' =>
      match child with
      | XmlElementNode c =>
          if decide (name c = n)
          then childrenNamed_from rest' n (matches ++ [c])
          else childrenNamed_from rest' n matches
      | _ => childrenNamed_from rest' n matches
      end
  end.

Definition childrenNamed (this : XmlElement) (n : jsstring)
    : list XmlElement :=
  childrenNamed_from (children this) n [].

(** The test of [childWithAttribute] on an element child:
    [attr[name] === value] with a value, the truthiness of [attr[name]]
    without one. *)
Definition attribute_matches (c : XmlElement) (n : jsstring)
    (value : option jsstring) : bool :=
  match value with
  | Some v => strict_eq_string (get_property (attr c) n) v
  | None => truthy (get_property (attr c) n)
  end.

Fixpoint childWithAttribute_from (rest : list XmlNode) (n : jsstring)
    (value : option jsstring) : option XmlElement :=
  match rest with
  | [] => None
  | child :: rest' =>
      match child with
      | XmlElementNode c =>
          if attribute_matches c n value then Some c
          else childWithAttribute_from rest' n value
      | _ => childWithAttribute_from rest' n value
      end
  end.

Definition childWithAttribute (this : XmlElement) (n : jsstring)
    (value : option jsstring) : option XmlElement :=
  childWithAttribute_from (children this) n value.

(** The loop of [descendantsNamed]; [descendants] is the recursive call
    on an element child. *)
Fixpoint descendantsNamed_from (descendants : XmlElement → list XmlElement)
    (rest : list XmlNode) (n : list N) (matches : list XmlElement)
    : list XmlElement :=
  match rest with
  | [] => matches
  | child :: rest' =>
      match child with
      | XmlElementNode element =>
          let matches :=
            if decide (name element = n) then matches ++ [element]
            else matches in
          descendantsNamed_from descendants rest' n
            (matches ++ descendants element)
      | _ => descendantsNamed_from descendants rest' n matches
      end
  end.

Fixpoint descendantsNamed (this : XmlElement) (n : list N)
    : list XmlElement :=
  match this with
  | mkXmlElement _ _ _ children _ _ _ _ _ _ =>
      descendantsNamed_from (λ element, descendantsNamed element n)
        children n []
  end.

(** The loop of [descendantWithPath] over the remaining components. *)
Fixpoint descendantWithPath_from (descendant : option XmlElement)
    (components : list jsstring) : option XmlElement :=
  match components with
  | [] => descendant
  | c :: components' =>
      match descendant with
      | Some d => descendantWithPath_from (childNamed d c) components'
      | None => None
      end
  end.

Definition descendantWithPath (this : XmlElement) (path : jsstring)
    : option XmlElement :=
  descendantWithPath_from (Some this) (split ch_dot path).

(** The result is [descendant.val] or the read [descendant.attr[...]],
    which can find a member of [Object.prototype]: a [JsValue]. *)
Definition valueWithPath (this : XmlElement) (path : jsstring)
    : JsValue :=
  let components := split ch_at path in
  let descendant :=
    descendantWithPath this (default [] (components !! 0)) in
  match descendant with
  | Some d =>
      if 1 <? length components
      then from_option (get_property (attr d)) JsUndefined (components !! 1)
      else JsString (val d)
  | None => JsUndefined
  end.

(** ** The serializer *)

(** The tag names [toStringWithIndent] writes as empty tags under
    [html]. *)
Definition whiteList : list (list N) :=
  [js "area"; js "base"; js "br"; js "col"; js "embed"; js "frame";
   js "hr"; js "img"; js "input"; js "keygen"; js "link"; js "menuitem";
   js "meta"; js "param"; js "source"; js "track"; js "wbr"].

Definition is_element (n : XmlNode) : bool :=
  match n with
  | XmlElementNode _ => true
  | _ => false
  end.

(** [toString] of a node that is not an element. *)
Definition leaf_toString (n : XmlNode) (options : option XmlStringOptions)
    : list N :=
  match n with
  | XmlTextNode t => XmlTextNode_toString t options
  | XmlCDataNode c => XmlCDataNode_toString c options
  | XmlCommentNode c => XmlCommentNode_toString c options
  | XmlElementNode _ => []
  end.

Section Serializer.

(** The order in which [for (const name in this.attr)] visits the keys of
    an attribute object. *)
Variable own_keys : gmap (list N) (list N) → list (list N).

(** The loop over the attributes. *)
Definition attributes_toString (attr : gmap (list N) (list N)) : list N :=
  foldl (λ s n, s ++ js " " ++ n ++ js "=" ++ [ch_quot]
                  ++ from_option escapeXML [] (attr !! n) ++ [ch_quot])
    [] (own_keys attr).

(** The loop of [toStringWithIndent] over the children, [s] the string
    it adds to; [render] is [toStringWithIndent(childIndent, options)] of
    an element child. *)
Fixpoint toStringWithIndent_each (render : XmlElement → list N)
    (childIndent linebreak : list N) (options : option XmlStringOptions)
    (rest : list XmlNode) (s : list N) : list N :=
  match rest with
  | [] => s
  | child :: rest' =>
      toStringWithIndent_each render childIndent linebreak options rest'
        (s ++ match child with
              | XmlElementNode e => render e
              | _ => childIndent ++ leaf_toString child options
              end ++ linebreak)
  end.

(** [XmlElement.toStringWithIndent] *)
Fixpoint toStringWithIndent (this : XmlElement) (indent : list N)
    (options : option XmlStringOptions) : list N :=
  match this with
  | mkXmlElement name attr _ children _ _ _ _ _ _ =>
      let s := indent ++ js "<" ++ name in
      let linebreak :=
        if truthy_flag options compressed then [] else [10%N] in
      let s := s ++ attributes_toString attr in
      if (length children =? 1)
         && negb (from_option is_element false (children !! 0))
      then
        s ++ js ">"
          ++ from_option (λ child, leaf_toString child options) []
               (children !! 0)
          ++ js "</" ++ name ++ js ">"
      else if negb (length children =? 0) then
        let s := s ++ js ">" ++ linebreak in
        let childIndent :=
          indent
          ++ (if truthy_flag options compressed then [] else js "  ") in
        let s :=
          toStringWithIndent_each
            (λ e, toStringWithIndent e childIndent options)
            childIndent linebreak options children s in
        s ++ indent ++ js "</" ++ name ++ js ">"
      else if truthy_flag options html then
        if bool_decide (name ∈ whiteList) then s ++ js "/>"
        else s ++ js "></" ++ name ++ js ">"
      else s ++ js "/>"
  end.

(** [XmlElement.toString] *)
Definition XmlElement_toString (this : XmlElement)
    (options : option XmlStringOptions) : list N :=
  toStringWithIndent this [] options.

End Serializer.

(** ** Definitions the statements use *)

(** *** The tree and its elements *)

(** The text an element's direct Text and CData children hold, in order. *)
Definition node_content (n : XmlNode) : jsstring :=
  match n with
  | XmlTextNode t => t
  | XmlCDataNode c => c
  | XmlElementNode _ => []
  | XmlCommentNode _ => []
  end.

Definition direct_content (l : list XmlNode) : jsstring :=
  flat_map node_content l.

(** A property of every element of the tree under [e], [e] included. *)
Definition all_elements (P : XmlElement → Prop) (e : XmlElement) : Prop :=
  ∀ r e', elem_at r e = Some e' → P e'.

Definition val_is_direct_content (e : XmlElement) : Prop :=
  val e = direct_content (children e).

Definition no_position (e : XmlElement) : Prop :=
  line e = None ∧ column e = None ∧ position e = None
  ∧ startTagPosition e = None.

(** What a property of elements needs for the builder to keep it on every
    element of the Document. *)
Record builder_invariant (P : XmlElement → Prop) : Prop := {
  inv_constructor : ∀ tag, P (XmlElement_constructor tag None);
  inv_child_update : ∀ e i c c',
    children e !! i = Some (XmlElementNode c) →
    P e → P (set_children e (<[i := XmlElementNode c']> (children e)));
  inv_addChild_element : ∀ this c,
    P this → P (_addChild this (XmlElementNode c));
  inv_text : ∀ this t, P this → P (_text this t);
  inv_cdata : ∀ this c, P this → P (_cdata this c);
  inv_comment : ∀ this c, P this → P (_comment this c);
  inv_name_attr : ∀ this n a, P this → P (set_name_attr this n a)
}.

(** Every reference on the stack leads to an element of the tree. *)
Definition delegates_valid (b : Builder) : Prop :=
  Forall (λ r, is_Some (elem_at r (doc_element (document b)))) (delegates b).

(** [f] keeps the children its receiver has, at their indices. *)
Definition keeps_children (f : XmlElement → XmlElement) : Prop :=
  ∀ x, ∃ more, children (f x) = children x ++ more.

(** [firstChild] and [lastChild] as nodes. *)
Definition firstChild_node (e : XmlElement) : option XmlNode :=
  firstChild e ≫= λ i, children e !! i.

Definition lastChild_node (e : XmlElement) : option XmlNode :=
  lastChild e ≫= λ i, children e !! i.

Definition ends_are_children (e : XmlElement) : Prop :=
  firstChild e = match children e with [] => None | _ => Some 0 end
  ∧ lastChild e
    = match children e with
      | [] => None
      | _ => Some (length (children e) - 1)
      end.

(** *** Events, errors and the stack *)

(** The events whose handler throws, given the stack they meet: a lexer
    error that finds a delegate, and a doctype that finds none. *)
Definition raises (ev : SaxEvent) (stack : list (list nat)) : Prop :=
  (∃ err, ev = OnError err ∧ stack ≠ [])
  ∨ (∃ d, ev = OnDoctype d ∧ stack = []).

Definition is_doctype (ev : SaxEvent) : bool :=
  match ev with
  | OnDoctype _ => true
  | _ => false
  end.

Definition is_error (ev : SaxEvent) : bool :=
  match ev with
  | OnError _ => true
  | _ => false
  end.

(** Neither a lexer error nor a doctype. *)
Definition quiet (pe : SAXParser * SaxEvent) : Prop :=
  is_error (snd pe) = false ∧ is_doctype (snd pe) = false.




Definition stack_after (sax_parser : SAXParser)
    (evs : list (SAXParser * SaxEvent)) : option (list (list nat)) :=
  match write evs (init_builder sax_parser) with
  | inr b => Some (delegates b)
  | inl _ => None
  end.

(** What a run from [b] to [b'] leaves: the tree [root'], the stack
    [stack'] and the doctype of [b]. *)
Definition leaves (b b' : Builder) (root' : XmlElement)
    (stack' : list (list nat)) : Prop :=
  doc_element (document b') = root' ∧ delegates b' = stack'
  ∧ doctype (document b') = doctype (document b).

(** *** Well-nested streams *)

(** The content of a well-formed document: what a lexer reads between an
    open tag and its close tag, nested. *)
#[warnings="-register-all"]
Inductive Tree :=
| tree_element (tag : Tag) (kids : list Tree)
| tree_text (t : list N)
| tree_cdata (c : list N)
| tree_comment (c : list N).

(** The events a lexer delivers for a tree, in document order. *)
Fixpoint events_of (t : Tree) : list SaxEvent :=
  match t with
  | tree_element tag kids =>
      OnOpenTag tag :: flat_map events_of kids ++ [OnCloseTag]
  | tree_text s => [OnText s]
  | tree_cdata c => [OnCData c]
  | tree_comment c => [OnComment c]
  end.

(** The element with the name and attributes of [tag] and the children
    [ch]: its [val] is the text of its direct Text and CData children,
    [firstChild] and [lastChild] are the ends of [ch], and it has no
    position. *)
Definition element_with (tag : Tag) (ch : list XmlNode) : XmlElement :=
  mkXmlElement (tag_name tag) (tag_attributes tag) (direct_content ch) ch
    (match ch with [] => None | _ => Some 0 end)
    (match ch with [] => None | _ => Some (length ch - 1) end)
    None None None None.

(** The node a tree stands for. *)
Fixpoint node_of (t : Tree) : XmlNode :=
  match t with
  | tree_element tag kids => XmlElementNode (element_with tag (map node_of kids))
  | tree_text s => XmlTextNode s
  | tree_cdata c => XmlCDataNode c
  | tree_comment c => XmlCommentNode c
  end.

(** The handler that adds [n] to an element, by the kind of [n]. *)
Definition add_node (this : XmlElement) (n : XmlNode) : XmlElement :=
  match n with
  | XmlElementNode _ => _addChild this n
  | XmlTextNode t => _text this t
  | XmlCDataNode c => _cdata this c
  | XmlCommentNode c => _comment this c
  end.

Definition add_nodes (this : XmlElement) (nodes : list XmlNode)
    : XmlElement :=
  foldl add_node this nodes.

(** A tree is read into the element on top of the stack as one more
    child. *)
Definition reads_tree (t : Tree) : Prop :=
  ∀ evs b r rs this,
    snd <$> evs = events_of t →
    delegates b = r :: rs →
    elem_at r (doc_element (document b)) = Some this →
    (r = [] → name (doc_element (document b)) ≠ []) →
    ∃ b', write evs b = inr b'
          ∧ leaves b b'
              (update_at r (λ x, add_node x (node_of t))
                 (doc_element (document b)))
              (r :: rs).

Definition reads_trees (kids : list Tree) : Prop :=
  ∀ evs b r rs this,
    snd <$> evs = flat_map events_of kids →
    delegates b = r :: rs →
    elem_at r (doc_element (document b)) = Some this →
    (r = [] → name (doc_element (document b)) ≠ []) →
    ∃ b', write evs b = inr b'
          ∧ leaves b b'
              (update_at r (λ x, add_nodes x (map node_of kids))
                 (doc_element (document b)))
              (r :: rs).

(** The elements a stream has left open when it stops: each with its tag
    and the children it has complete, outermost first. *)
Definition open_events (ctx : list (Tag * list Tree)) : list SaxEvent :=
  flat_map (λ tk, OnOpenTag (fst tk) :: flat_map events_of (snd tk)) ctx.

(** The open elements closed where the stream stops. *)
Fixpoint closed (ctx : list (Tag * list Tree)) : list Tree :=
  match ctx with
  | [] => []
  | tk :: ctx' => [tree_element (fst tk) (snd tk ++ closed ctx')]
  end.

(** What comes before the root tag: doctype and comment events. *)
Definition is_prolog (ev : SaxEvent) : bool :=
  match ev with
  | OnDoctype _ | OnComment _ => true
  | _ => false
  end.

Definition prolog_nodes (evs : list SaxEvent) : list XmlNode :=
  flat_map (λ ev, match ev with
                  | OnComment c => [XmlCommentNode c]
                  | _ => []
                  end) evs.

Definition prolog_doctype (evs : list SaxEvent) : list N :=
  flat_map (λ ev, match ev with OnDoctype d => d | _ => [] end) evs.

(** The tag the Document is constructed with. *)
Definition no_tag : Tag := {| tag_name := []; tag_attributes := ∅ |}.

(** *** Rendering *)

(** The first 25 code units, trimmed, and the ellipsis. *)
Definition truncated (s : jsstring) : jsstring :=
  trim (take 25 s) ++ [ch_ellipsis].

(** What [formatText] makes of [s] when [trimmed] is on. *)
Definition trimmed_rendering (o : XmlStringOptions) (s : jsstring)
    : jsstring :=
  if 25 <? length s then truncated s
  else if truthy_flag (Some o) preserveWhitespace then s
  else trim s.

(** The entity [escapeXML] writes for a code unit, the unit itself when it
    has none. *)
Definition xml_entity (c : N) : list N :=
  if (c =? ch_amp)%N then js "&amp;"
  else if (c =? ch_lt)%N then js "&lt;"
  else if (c =? ch_gt)%N then js "&gt;"
  else if (c =? ch_apos)%N then js "&apos;"
  else if (c =? ch_quot)%N then js "&quot;"
  else [c].

Section FlatMarkup.

Variable own_keys : gmap (list N) (list N) → list (list N).

(** The closing of an element without children. *)
Definition empty_tag (options : option XmlStringOptions) (name : list N)
    : list N :=
  if truthy_flag options html
  then if bool_decide (name ∈ whiteList) then js "/>"
       else js "></" ++ name ++ js ">"
  else js "/>".

(** The markup of a tree with nothing put between the tags and their
    content. *)
Fixpoint flat_xml (options : option XmlStringOptions) (e : XmlElement)
    : list N :=
  match e with
  | mkXmlElement name attr _ children _ _ _ _ _ _ =>
      js "<" ++ name ++ attributes_toString own_keys attr
      ++ match children with
         | [] => empty_tag options name
         | _ =>
             js ">"
             ++ flat_map (λ child,
                            match child with
                            | XmlElementNode c => flat_xml options c
                            | _ => leaf_toString child options
                            end) children
             ++ js "</" ++ name ++ js ">"
         end
  end.

End FlatMarkup.

(** *** Queries *)

(** An element child called [n]. *)
Definition is_element_named (n : list N) (c : XmlNode) : bool :=
  match c with
  | XmlElementNode e => bool_decide (name e = n)
  | _ => false
  end.

(** The first element child that passes [p]. *)
Fixpoint first_element (p : XmlElement → bool) (l : list XmlNode)
    : option XmlElement :=
  match l with
  | [] => None
  | XmlElementNode c :: l' => if p c then Some c else first_element p l'
  | _ :: l' => first_element p l'
  end.


(** The element children with their indices in [children], in order. *)
Fixpoint element_children_from (i : nat) (l : list XmlNode)
    : list (nat * XmlElement) :=
  match l with
  | [] => []
  | XmlElementNode c :: l' => (i, c) :: element_children_from (S i) l'
  | _ :: l' => element_children_from (S i) l'
  end.

Definition element_children (e : XmlElement) : list (nat * XmlElement) :=
  element_children_from 0 (children e).

(** The iterator called on [calls] in turn, up to and including the first
    call that returns [false]. *)
Fixpoint calls_until_false {St Ctx : Type}
    (iterator : Ctx → XmlElement → nat → list XmlNode → St → JsValue * St)
    (context : Ctx) (array : list XmlNode)
    (calls : list (nat * XmlElement)) (s : St) : St :=
  match calls with
  | [] => s
  | (i, c) :: calls' =>
      let (r, s') := iterator context c i array s in
      match r with
      | JsBoolean false => s'
      | _ => calls_until_false iterator context array calls' s'
      end
  end.

(** What one child adds to the matches of [descendantsNamed]. *)
Definition descendants_through (n : list N) (child : XmlNode)
    : list XmlElement :=
  match child with
  | XmlElementNode element =>
      (if decide (name element = n) then [element] else [])
      ++ descendantsNamed element n
  | _ => []
  end.

(** ** Sample documents and event streams *)

Definition parser_at (l c p s : N) : SAXParser :=
  {| sax_line := l; sax_column := c; sax_position := p;
     sax_startTagPosition := s |}.

Definition mk_tag (n : string) (attrs : list (string * string)) : Tag :=
  {| tag_name := js n;
     tag_attributes :=
       list_to_map (map (λ kv, (js (fst kv), js (snd kv))) attrs) |}.

(** An element as [new XmlElement(tag)] leaves it, with children put in. *)
Definition mk_element (n : string) (attrs : list (string * string))
    (v : string) (ch : list XmlNode) : XmlElement :=
  mkXmlElement (js n) (tag_attributes (mk_tag n attrs)) (js v) ch
    (match ch with [] => None | _ => Some 0 end)
    (match ch with [] => None | _ => Some (length ch - 1) end)
    None None None None.

Definition mk_document (e : XmlElement) : XmlDocument :=
  {| doc_element := e; doctype := []; parser := None |}.

(** A lexer that delivers [evs], every event at the same counters. *)
Definition delivering (evs : list SaxEvent)
    : list N → list (SAXParser * SaxEvent) :=
  λ _, map (λ ev, (parser_at 0 0 0 0, ev)) evs.

Definition only_trimmed : XmlStringOptions :=
  {| compressed := None; trimmed := Some true;
     preserveWhitespace := None; html := None |}.

Definition html_on : XmlStringOptions :=
  {| compressed := None; trimmed := None; preserveWhitespace := None;
     html := Some true |}.

Definition compressed_on : XmlStringOptions :=
  {| compressed := Some true; trimmed := None; preserveWhitespace := None;
     html := None |}.

Definition sorted_keys (m : gmap (list N) (list N)) : list (list N) :=
  (map_to_list m).*1.

(** [<a>t1<b>in</b><!--c--><![CDATA[t2]]></a>] *)
Definition mixed_events : list SaxEvent :=
  [OnOpenTag (mk_tag "a" []); OnText (js "t1");
   OnOpenTag (mk_tag "b" []); OnText (js "in"); OnCloseTag;
   OnComment (js "c"); OnCData (js "t2"); OnCloseTag].

Definition mixed_document : XmlDocument :=
  mk_document
    (mk_element "a" [] "t1t2"
       [XmlTextNode (js "t1");
        XmlElementNode (mk_element "b" [] "in" [XmlTextNode (js "in")]);
        XmlCommentNode (js "c");
        XmlCDataNode (js "t2")]).

(** [<a>t1<b>in</b><!--c--><![CDATA[t2]]></a>] as content. *)
Definition mixed_kids : list Tree :=
  [tree_text (js "t1"); tree_element (mk_tag "b" []) [tree_text (js "in")];
   tree_comment (js "c"); tree_cdata (js "t2")].

(** The test ['tag locations'] of [test/basic.js]:
    [<books><book title='Twilight'/></books>], with the counters the
    parser holds at each event. *)
Definition tag_locations_xml : list N :=
  js "<books><book title=" ++ [ch_quot] ++ js "Twilight" ++ [ch_quot]
  ++ js "/></books>".

Definition tag_locations_events : list (SAXParser * SaxEvent) :=
  [(parser_at 0 7 7 1, OnOpenTag (mk_tag "books" []));
   (parser_at 0 31 31 8, OnOpenTag (mk_tag "book" [("title", "Twilight")]));
   (parser_at 0 31 31 8, OnCloseTag);
   (parser_at 0 39 39 33, OnCloseTag)].

Definition tag_locations_book : XmlElement :=
  mk_element "book" [("title", "Twilight")] "" [].

Definition tag_locations_document : XmlDocument :=
  mk_document
    (mk_element "books" [] "" [XmlElementNode tag_locations_book]).


(** [<a><b>x]: the stream ends with [a] and [b] open. *)
Definition unclosed_events : list SaxEvent :=
  [OnOpenTag (mk_tag "a" []); OnOpenTag (mk_tag "b" []); OnText (js "x")].

Definition unclosed_document : XmlDocument :=
  mk_document
    (mk_element "a" [] ""
       [XmlElementNode (mk_element "b" [] "x" [XmlTextNode (js "x")])]).

(** What the lexer has delivered for [<a><b>] when [write] returns: the
    two open tags.  That the root is still open the lexer reports on
    [close], which the constructor does not call. *)
Definition open_tags_events : list SaxEvent :=
  [OnOpenTag (mk_tag "a" []); OnOpenTag (mk_tag "b" [])].

Definition open_tags_document : XmlDocument :=
  mk_document
    (mk_element "a" [] "" [XmlElementNode (mk_element "b" [] "" [])]).

(** [<hello><unclosed-tag></hello>] of the test suite: at [</hello>] the
    lexer reports a close tag that does not match the open element. *)
Definition mismatched_close_events : list SaxEvent :=
  [OnOpenTag (mk_tag "hello" []); OnOpenTag (mk_tag "unclosed-tag" []);
   OnError (js "Unexpected close tag")].

(** [<div><br/></div>] *)
Definition div_br : XmlElement :=
  mk_element "div" [] "" [XmlElementNode (mk_element "br" [] "" [])].

(** [<books><book isbn=''/><book isbn='123'/></books>] *)
Definition isbn_events : list SaxEvent :=
  [OnOpenTag (mk_tag "books" []);
   OnOpenTag (mk_tag "book" [("isbn", "")]); OnCloseTag;
   OnOpenTag (mk_tag "book" [("isbn", "123")]); OnCloseTag;
   OnCloseTag].

Definition isbn_xml : list N :=
  js "<books><book isbn=" ++ [ch_quot; ch_quot] ++ js "/><book isbn="
  ++ [ch_quot] ++ js "123" ++ [ch_quot] ++ js "/></books>".

Definition isbn_document : XmlDocument :=
  mk_document
    (mk_element "books" [] ""
       [XmlElementNode (mk_element "book" [("isbn", "")] "" []);
        XmlElementNode (mk_element "book" [("isbn", "123")] "" [])]).

(** [<book><author><name isProper="true">George R. R. Martin</name>
    </author></book>] of the README. *)
Definition book_name : XmlElement :=
  mk_element "name" [("isProper", "true")] "George R. R. Martin"
    [XmlTextNode (js "George R. R. Martin")].

Definition book_element : XmlElement :=
  mk_element "book" [] ""
    [XmlElementNode (mk_element "author" [] "" [XmlElementNode book_name])].

(** [<a>x<b/><!--c--><c/><![CDATA[y]]><d/></a>] *)
Definition five_children : XmlElement :=
  mk_element "a" [] "xy"
    [XmlTextNode (js "x"); XmlElementNode (mk_element "b" [] "" []);
     XmlCommentNode (js "c"); XmlElementNode (mk_element "c" [] "" []);
     XmlCDataNode (js "y"); XmlElementNode (mk_element "d" [] "" [])].

(** An iterator that notes the index it is called with and returns [r]. *)
Definition noting (r : JsValue)
    : unit → XmlElement → nat → list XmlNode → list nat → JsValue * list nat :=
  λ _ _ i _ log, (r, log ++ [i]).

(** An iterator that notes the index it is called with and returns
    [false] at index [k], [undefined] at any other. *)
Definition refusing (k : nat)
    : unit → XmlElement → nat → list XmlNode → list nat → JsValue * list nat :=
  λ _ _ i _ log,
    (if i =? k then JsBoolean false else JsUndefined, log ++ [i]).

(* ================================================================= *)
(** * Properties *)

(** ** Strings *)

Example escapeXML_ex :
  escapeXML (js "< >") = js "&lt; &gt;".
Proof. vm_compute. reflexivity. Qed.

Example split_ex :
  split ch_dot (js "author.name") = [js "author"; js "name"].
Proof. vm_compute. reflexivity. Qed.

Example trim_ex : trim (js "  a b ") = js "a b".
Proof. vm_compute. reflexivity. Qed.

Lemma trimStart_split (s : list N) :
  ∃ w, s = w ++ trimStart s ∧ Forall (λ c, is_whitespace c = true) w.
Proof.
  induction s as [|c s IH]; simpl.
  - by exists [].
  - destruct (is_whitespace c) eqn:Hc.
    + destruct IH as (w & Hs & Hw). exists (c :: w). split.
      * simpl. by rewrite <- Hs.
      * by constructor.
    + by exists [].
Qed.

Lemma trimStart_head (s : list N) :
  trimStart s = [] ∨ ∃ c t, trimStart s = c :: t ∧ is_whitespace c = false.
Proof.
  induction s as [|c s IH]; simpl; [by left|].
  destruct (is_whitespace c) eqn:Hc; [done|]. right. eauto.
Qed.

Lemma trimStart_nil (s : list N) :
  trimStart s = [] ↔ Forall (λ c, is_whitespace c = true) s.
Proof.
  induction s as [|c s IH]; simpl; [done|].
  destruct (is_whitespace c) eqn:Hc.
  - rewrite IH. split; [by constructor|]. by inversion 1.
  - split; [done|]. inversion 1; congruence.
Qed.

Lemma trimEnd_split (s : list N) :
  ∃ w, s = trimEnd s ++ w ∧ Forall (λ c, is_whitespace c = true) w.
Proof.
  destruct (trimStart_split (rev s)) as (w & Hs & Hw).
  exists (rev w). split.
  - unfold trimEnd. rewrite <- rev_app_distr, <- Hs. by rewrite rev_involutive.
  - by apply Forall_rev.
Qed.

Lemma trim_nil (s : list N) :
  trim s = [] ↔ Forall (λ c, is_whitespace c = true) s.
Proof.
  unfold trim. rewrite trimStart_nil.
  destruct (trimEnd_split s) as (w & Hs & Hw).
  rewrite Hs at 2. rewrite Forall_app. tauto.
Qed.

Lemma trimEnd_snoc (s : list N) (c : N) :
  is_whitespace c = false → trimEnd (s ++ [c]) = s ++ [c].
Proof.
  intros Hc. unfold trimEnd. rewrite rev_app_distr. simpl. rewrite Hc.
  simpl. by rewrite rev_involutive.
Qed.

Lemma trim_trim_snoc (s : list N) (c : N) :
  is_whitespace c = false → trim (trim s ++ [c]) = trim s ++ [c].
Proof.
  intros Hc. unfold trim at 1. rewrite trimEnd_snoc by done.
  unfold trim. destruct (trimStart_head (trimEnd s)) as [->|(x & t & -> & Hx)].
  - simpl. by rewrite Hc.
  - simpl. by rewrite Hx.
Qed.

Lemma replaceAll_length (c : N) (r s : list N) :
  r ≠ [] → length s ≤ length (replaceAll c r s).
Proof.
  intros Hr. unfold replaceAll. induction s as [|x s IH]; simpl; [done|].
  rewrite length_app. destruct (x =? c)%N; simpl; [|lia].
  destruct r; [done|]. simpl. lia.
Qed.

Lemma escapeXML_length (s : list N) : length s ≤ length (escapeXML s).
Proof.
  unfold escapeXML.
  repeat (etrans; [|apply replaceAll_length; by vm_compute]). done.
Qed.

Lemma trimStart_length (s : list N) : length (trimStart s) ≤ length s.
Proof.
  destruct (trimStart_split s) as (w & Hs & _).
  rewrite Hs at 2. rewrite length_app. lia.
Qed.

Lemma trim_length (s : list N) : length (trim s) ≤ length s.
Proof.
  unfold trim, trimEnd. etrans; [apply trimStart_length|].
  rewrite length_rev. etrans; [apply trimStart_length|].
  by rewrite length_rev.
Qed.

Lemma trimStart_fixed (s : list N) :
  (∀ c, head s = Some c → is_whitespace c = false) → trimStart s = s.
Proof.
  destruct s as [|c s]; simpl; [done|]. intros H. by rewrite (H c).
Qed.

Lemma trimEnd_fixed (s : list N) :
  (∀ c, last s = Some c → is_whitespace c = false) → trimEnd s = s.
Proof.
  destruct s as [|c s _] using rev_ind; [done|]. intros H.
  apply trimEnd_snoc, H. by rewrite last_snoc.
Qed.

Lemma trimEnd_last (s : list N) (c : N) :
  last (trimEnd s) = Some c → is_whitespace c = false.
Proof.
  unfold trimEnd.
  destruct (trimStart_head (rev s)) as [->|(x & t & -> & Hx)]; simpl;
    [done|]. rewrite last_snoc. by intros [= <-].
Qed.

Lemma trim_head (s : list N) (c : N) :
  head (trim s) = Some c → is_whitespace c = false.
Proof.
  unfold trim.
  destruct (trimStart_head (trimEnd s)) as [->|(x & t & -> & Hx)]; simpl;
    [done|]. by intros [= <-].
Qed.

Lemma trim_last (s : list N) (c : N) :
  last (trim s) = Some c → is_whitespace c = false.
Proof.
  unfold trim. destruct (trimStart_split (trimEnd s)) as (w & Hs & _).
  intros Hl. apply (trimEnd_last s). rewrite Hs.
  destruct (trimStart (trimEnd s)) as [|x t] eqn:Ht; [done|].
  rewrite last_app. by rewrite Hl.
Qed.

Lemma trim_fixed (s : list N) :
  (∀ c, head s = Some c → is_whitespace c = false) →
  (∀ c, last s = Some c → is_whitespace c = false) →
  trim s = s.
Proof.
  intros Hh Hl. unfold trim. rewrite (trimEnd_fixed s Hl).
  by apply trimStart_fixed.
Qed.

(** ** [escapeXML] *)

Lemma replaceAll_app (c : N) (r a b : list N) :
  replaceAll c r (a ++ b) = replaceAll c r a ++ replaceAll c r b.
Proof. unfold replaceAll. apply flat_map_app. Qed.

Lemma replaceAll_other (c x : N) (r : list N) :
  x ≠ c → replaceAll c r [x] = [x].
Proof.
  intros Hx. unfold replaceAll. simpl.
  by destruct (N.eqb_spec x c).
Qed.

Lemma escapeXML_app (a b : list N) :
  escapeXML (a ++ b) = escapeXML a ++ escapeXML b.
Proof. unfold escapeXML. by rewrite !replaceAll_app. Qed.

Lemma escapeXML_unit (c : N) : escapeXML [c] = xml_entity c.
Proof.
  unfold xml_entity.
  destruct (N.eqb_spec c ch_amp) as [->|H1]; [by vm_compute|].
  destruct (N.eqb_spec c ch_lt) as [->|H2]; [by vm_compute|].
  destruct (N.eqb_spec c ch_gt) as [->|H3]; [by vm_compute|].
  destruct (N.eqb_spec c ch_apos) as [->|H4]; [by vm_compute|].
  destruct (N.eqb_spec c ch_quot) as [->|H5]; [by vm_compute|].
  unfold escapeXML. by rewrite !replaceAll_other.
Qed.

Lemma xml_entity_clean (c x : N) :
  x ∈ xml_entity c →
  x ≠ ch_lt ∧ x ≠ ch_gt ∧ x ≠ ch_apos ∧ x ≠ ch_quot.
Proof.
  unfold xml_entity.
  destruct (N.eqb_spec c ch_amp); [|
  destruct (N.eqb_spec c ch_lt); [|
  destruct (N.eqb_spec c ch_gt); [|
  destruct (N.eqb_spec c ch_apos); [|
  destruct (N.eqb_spec c ch_quot)]]]].
  6: { intros ->%list_elem_of_singleton. done. }
  all: intros Hx; vm_compute in Hx;
    repeat (apply elem_of_cons in Hx as [->|Hx]; [by vm_compute|]);
    by apply elem_of_nil in Hx.
Qed.

(** X1: the five replacements of [escapeXML] amount to one pass that
    writes each [&], [<], [>], ['] and ["] as its entity and copies every
    other code unit: no entity is escaped twice, escaping goes through
    concatenation, and the result holds no [<], [>], ['] or ["]. *)
Theorem escapeXML_is_one_pass (s t : list N) :
  escapeXML s = flat_map xml_entity s
  ∧ escapeXML (s ++ t) = escapeXML s ++ escapeXML t
  ∧ ∀ x, x ∈ escapeXML s →
         x ≠ ch_lt ∧ x ≠ ch_gt ∧ x ≠ ch_apos ∧ x ≠ ch_quot.
Proof.
  assert (H : ∀ u, escapeXML u = flat_map xml_entity u).
  { induction u as [|c u IH]; [done|].
    change (c :: u) with ([c] ++ u).
    by rewrite escapeXML_app, escapeXML_unit, IH. }
  split; [apply H|]. split; [apply escapeXML_app|].
  intros x. rewrite H. intros Hx.
  apply list_elem_of_In, in_flat_map in Hx as (c & _ & Hx).
  by apply (xml_entity_clean c), list_elem_of_In.
Qed.

(** ** [formatText] and the [trimmed] option *)

Lemma formatText_trimmed (o : XmlStringOptions) (s : list N) :
  trimmed o = Some true → formatText s (Some o) = trimmed_rendering o s.
Proof.
  intros Ht. unfold formatText, trimmed_rendering, truncated.
  replace (truthy_flag (Some o) trimmed) with true
    by (unfold truthy_flag; by rewrite Ht).
  simpl andb. destruct (25 <? length s); [|by destruct (truthy_flag _ _)].
  destruct (truthy_flag _ _); simpl; [done|].
  by apply trim_trim_snoc.
Qed.

(** C6 (as amended): with [trimmed] on, the threshold of 25 is applied to
    the string [formatText] is given, which is the entity-escaped content
    for a Text and a Comment node and the raw content for a CData node;
    above it the rendering is the first 25 code units of that string,
    trimmed, and the ellipsis, whatever [preserveWhitespace] says; at or
    below it nothing is cut.  Escaping never shortens, so raw content
    longer than 25 is always cut. *)
Theorem trimmed_threshold_is_on_the_formatted_string
    (o : XmlStringOptions) (s : list N) :
  trimmed o = Some true →
  XmlTextNode_toString s (Some o) = trimmed_rendering o (escapeXML s)
  ∧ XmlCDataNode_toString s (Some o)
    = js "<![CDATA[" ++ trimmed_rendering o s ++ js "]]>"
  ∧ XmlCommentNode_toString s (Some o)
    = js "<!--" ++ trimmed_rendering o (escapeXML s) ++ js "-->"
  ∧ (25 < length (escapeXML s) →
     trimmed_rendering o (escapeXML s) = truncated (escapeXML s))
  ∧ (length (escapeXML s) ≤ 25 →
     trimmed_rendering o (escapeXML s)
     = if truthy_flag (Some o) preserveWhitespace then escapeXML s
       else trim (escapeXML s))
  ∧ length s ≤ length (escapeXML s).
Proof.
  intros Ht.
  unfold XmlTextNode_toString, XmlCDataNode_toString, XmlCommentNode_toString.
  rewrite !formatText_trimmed by done.
  repeat split; try done.
  - intros Hlen. unfold trimmed_rendering.
    by destruct (Nat.ltb_spec 25 (length (escapeXML s))); [|lia].
  - intros Hlen. unfold trimmed_rendering.
    by destruct (Nat.ltb_spec 25 (length (escapeXML s))); [lia|].
  - apply escapeXML_length.
Qed.

(** A Text node of 22 code units whose escaped form has 36. *)
Lemma trimmed_threshold_witness :
  trimmed only_trimmed = Some true
  ∧ XmlTextNode_toString (js "if (a < b && b < c) ok") (Some only_trimmed)
    = trimmed_rendering only_trimmed
        (escapeXML (js "if (a < b && b < c) ok")).
Proof.
  split; [reflexivity|].
  exact (proj1 (trimmed_threshold_is_on_the_formatted_string only_trimmed
                  (js "if (a < b && b < c) ok") eq_refl)).
Defined.

(** C6, counterexample: a Text node of 22 code units is cut under
    [trimmed], because its escaped form has 36. *)
Lemma short_raw_text_is_truncated :
  length (js "if (a < b && b < c) ok") = 22
  ∧ XmlTextNode_toString (js "if (a < b && b < c) ok") (Some only_trimmed)
    = js "if (a &lt; b &amp;&amp; b" ++ [ch_ellipsis]
  ∧ XmlTextNode_toString (js "if (a < b && b < c) ok") None
    = js "if (a &lt; b &amp;&amp; b &lt; c) ok".
Proof. vm_compute. done. Qed.

(** ** [formatText]: length and whitespace *)

(** X2: with [trimmed] on, [formatText] returns at most 26 code units, so
    a Text node renders in at most 26, a CData node in at most 38 and a
    Comment node in at most 33. *)
Theorem trimmed_rendering_is_short (o : XmlStringOptions) (s : list N) :
  trimmed o = Some true →
  length (formatText s (Some o)) ≤ 26
  ∧ length (XmlTextNode_toString s (Some o)) ≤ 26
  ∧ length (XmlCDataNode_toString s (Some o)) ≤ 38
  ∧ length (XmlCommentNode_toString s (Some o)) ≤ 33.
Proof.
  intros Ht.
  assert (H : ∀ u, length (formatText u (Some o)) ≤ 26).
  { intros u. rewrite formatText_trimmed by done.
    unfold trimmed_rendering, truncated.
    destruct (Nat.ltb_spec 25 (length u)).
    - rewrite length_app. simpl.
      pose proof (trim_length (take 25 u)).
      rewrite length_take in *. lia.
    - pose proof (trim_length u). destruct (truthy_flag _ _); lia. }
  split; [apply H|]. split; [apply H|].
  unfold XmlCDataNode_toString, XmlCommentNode_toString.
  rewrite !length_app. pose proof (H s). pose proof (H (escapeXML s)).
  change (length (js "<![CDATA[")) with 9.
  change (length (js "]]>")) with 3.
  change (length (js "<!--")) with 4.
  change (length (js "-->")) with 3. lia.
Qed.

Lemma trimmed_rendering_is_short_witness :
  trimmed only_trimmed = Some true
  ∧ length (XmlTextNode_toString
              (js "a text of more than twenty-five code units")
              (Some only_trimmed)) ≤ 26.
Proof.
  split; [reflexivity|].
  exact (proj1 (proj2 (trimmed_rendering_is_short only_trimmed
           (js "a text of more than twenty-five code units") eq_refl))).
Defined.

(** X3: unless [preserveWhitespace] is on, what [formatText] returns
    neither starts nor ends with whitespace, whatever the other options
    are: trimming it again changes nothing. *)
Theorem formatText_leaves_no_outer_whitespace
    (options : option XmlStringOptions) (s : list N) :
  truthy_flag options preserveWhitespace = false →
  (∀ c, head (formatText s options) = Some c → is_whitespace c = false)
  ∧ (∀ c, last (formatText s options) = Some c → is_whitespace c = false)
  ∧ trim (formatText s options) = formatText s options.
Proof.
  intros Hp.
  assert (∃ x, formatText s options = trim x) as [x ->].
  { unfold formatText. rewrite Hp. by eexists. }
  assert (Hh : ∀ c, head (trim x) = Some c → is_whitespace c = false)
    by apply trim_head.
  assert (Hl : ∀ c, last (trim x) = Some c → is_whitespace c = false)
    by apply trim_last.
  split; [done|]. split; [done|]. by apply trim_fixed.
Qed.

Lemma formatText_whitespace_witness :
  truthy_flag None preserveWhitespace = false
  ∧ trim (formatText (js "  two words  ") None)
    = formatText (js "  two words  ") None.
Proof.
  split; [reflexivity|].
  exact (proj2 (proj2 (formatText_leaves_no_outer_whitespace None
                         (js "  two words  ") eq_refl))).
Defined.

(** ** The constructor and the empty input *)

Lemma dispatch_not_NoXmlToParse (ev : SaxEvent) (b : Builder) :
  dispatch ev b ≠ inl NoXmlToParse.
Proof.
  destruct ev; simpl; destruct (delegates b) as [|[|??] ?]; done.
Qed.

Lemma write_not_NoXmlToParse (evs : list (SAXParser * SaxEvent))
    (b : Builder) :
  write evs b ≠ inl NoXmlToParse.
Proof.
  revert b. induction evs as [|pe evs IH]; intros b; simpl; [done|].
  destruct (fire pe b) as [err|b'] eqn:Hf; [|apply IH].
  intros [= ->]. by apply dispatch_not_NoXmlToParse in Hf.
Qed.

(** C5: the constructor throws its own "No XML to parse!" error exactly
    when the input is empty once trimmed, that is when it holds nothing
    but whitespace; it does so whatever the lexer is, which is not
    consulted on that path. *)
Theorem empty_input_iff_trimmed_empty
    (sax_parser : SAXParser)
    (sax_write : list N → list (SAXParser * SaxEvent)) (xml : list N) :
  (XmlDocument_constructor sax_parser sax_write xml = inl NoXmlToParse
   ↔ trim xml = [])
  ∧ (trim xml = [] ↔ Forall (λ c, is_whitespace c = true) xml)
  ∧ (XmlDocument_constructor sax_parser sax_write xml = inl NoXmlToParse →
     ∀ sax_parser' sax_write',
       XmlDocument_constructor sax_parser' sax_write' xml = inl NoXmlToParse).
Proof.
  assert (Hiff : ∀ p w,
    XmlDocument_constructor p w xml = inl NoXmlToParse ↔ trim xml = []).
  { intros p w. unfold XmlDocument_constructor.
    destruct (decide (trim xml = [])) as [Hx|Hx]; [done|].
    split; [|done].
    destruct (write _ _) as [err|b] eqn:Hw; [|done].
    intros [= ->]. by apply write_not_NoXmlToParse in Hw. }
  split; [apply Hiff|]. split; [apply trim_nil|].
  intros H p w. apply Hiff. by apply Hiff in H.
Qed.

(** The whitespace-only input of the test suite, with a lexer that would
    deliver events for it. *)
Lemma empty_input_witness :
  XmlDocument_constructor (parser_at 0 0 0 0) (delivering mixed_events)
    (js "  ") = inl NoXmlToParse
  ∧ ∀ sax_parser' sax_write',
      XmlDocument_constructor sax_parser' sax_write' (js "  ")
      = inl NoXmlToParse.
Proof.
  assert (H : XmlDocument_constructor (parser_at 0 0 0 0)
                (delivering mixed_events) (js "  ") = inl NoXmlToParse)
    by (vm_compute; reflexivity).
  split; [exact H|].
  exact (proj2 (proj2 (empty_input_iff_trimmed_empty (parser_at 0 0 0 0)
                         (delivering mixed_events) (js "  "))) H).
Defined.

(** ** The tree under construction *)

Lemma children_addChild (this : XmlElement) (child : XmlNode) :
  children (_addChild this child) = children this ++ [child].
Proof. by destruct this. Qed.

Lemma val_addChild (this : XmlElement) (child : XmlNode) :
  val (_addChild this child) = val this.
Proof. by destruct this. Qed.

Lemma all_elements_unfold (P : XmlElement → Prop) (e : XmlElement) :
  all_elements P e
  ↔ P e ∧ ∀ i c, children e !! i = Some (XmlElementNode c) → all_elements P c.
Proof.
  split.
  - intros H. split; [by apply (H [])|].
    intros i c Hi r e' Hr. apply (H (i :: r)). simpl. by rewrite Hi.
  - intros [HP Hc] [|i r] e' Hr; simpl in Hr; [by simplify_eq|].
    destruct (children e !! i) as [[c| | |]|] eqn:Hi; try done.
    by apply (Hc i c Hi r).
Qed.

Lemma all_elements_leaf (P : XmlElement → Prop) (e : XmlElement) :
  P e → children e = [] → all_elements P e.
Proof.
  intros HP Hc. apply all_elements_unfold. split; [done|].
  intros i c. by rewrite Hc.
Qed.

(** A method that appends one child keeps the property everywhere if it
    holds on the receiver afterwards and under the new child. *)
Lemma all_elements_append (P : XmlElement → Prop)
    (this this' : XmlElement) (child : XmlNode) :
  P this' →
  children this' = children this ++ [child] →
  (∀ c, child = XmlElementNode c → all_elements P c) →
  all_elements P this → all_elements P this'.
Proof.
  intros HP Hch Hnew [_ Hsub]%all_elements_unfold.
  apply all_elements_unfold. split; [done|].
  intros i c. rewrite Hch. intros Hi.
  apply lookup_app_Some in Hi as [Hi|[_ Hi]]; [by eapply Hsub|].
  apply list_lookup_singleton_Some in Hi as [_ ->]. by apply Hnew.
Qed.

Lemma update_at_all_elements (P : XmlElement → Prop)
    (f : XmlElement → XmlElement) (r : list nat) (e : XmlElement) :
  builder_invariant P →
  (∀ x, all_elements P x → all_elements P (f x)) →
  all_elements P e → all_elements P (update_at r f e).
Proof.
  intros HI Hf. revert e. induction r as [|i r IH]; intros e He; simpl.
  { by apply Hf. }
  destruct (children e !! i) as [[c| | |]|] eqn:Hi; try done.
  pose proof He as [HP Hsub]%all_elements_unfold.
  apply all_elements_unfold. split.
  { by eapply inv_child_update. }
  intros j c'. destruct e as [n a v ch fc lc li co po st]. simpl in *.
  destruct (decide (i = j)) as [<-|Hne].
  - rewrite list_lookup_insert_eq by by eapply lookup_lt_Some.
    intros [= <-]. apply IH. by eapply Hsub.
  - rewrite list_lookup_insert_ne by done. apply Hsub.
Qed.

Section BuilderInvariant.

Variable P : XmlElement → Prop.
Hypothesis HP : builder_invariant P.

Lemma addChild_element_all_elements (tag : Tag) (x : XmlElement) :
  all_elements P x →
  all_elements P
    (_addChild x (XmlElementNode (XmlElement_constructor tag None))).
Proof.
  intros Hx.
  apply (all_elements_append P x _
           (XmlElementNode (XmlElement_constructor tag None))).
  - apply inv_addChild_element; [done|].
    by apply all_elements_unfold in Hx as [? _].
  - apply children_addChild.
  - intros c [= <-]. apply all_elements_leaf; [|done].
    by apply inv_constructor.
  - done.
Qed.

Lemma text_all_elements (t : list N) (x : XmlElement) :
  all_elements P x → all_elements P (_text x t).
Proof.
  intros Hx. apply (all_elements_append P x _ (XmlTextNode t)).
  - apply inv_text; [done|]. by apply all_elements_unfold in Hx as [? _].
  - unfold _text. rewrite children_addChild. by destruct x.
  - done.
  - done.
Qed.

Lemma cdata_all_elements (t : list N) (x : XmlElement) :
  all_elements P x → all_elements P (_cdata x t).
Proof.
  intros Hx. apply (all_elements_append P x _ (XmlCDataNode t)).
  - apply inv_cdata; [done|]. by apply all_elements_unfold in Hx as [? _].
  - unfold _cdata. rewrite children_addChild. by destruct x.
  - done.
  - done.
Qed.

Lemma comment_all_elements (t : list N) (x : XmlElement) :
  all_elements P x → all_elements P (_comment x t).
Proof.
  intros Hx. apply (all_elements_append P x _ (XmlCommentNode t)).
  - apply inv_comment; [done|]. by apply all_elements_unfold in Hx as [? _].
  - apply children_addChild.
  - done.
  - done.
Qed.

Lemma name_attr_all_elements (n : list N) (a : gmap (list N) (list N))
    (x : XmlElement) :
  all_elements P x → all_elements P (set_name_attr x n a).
Proof.
  intros [Hx Hsub]%all_elements_unfold. apply all_elements_unfold.
  split; [by apply inv_name_attr|]. by destruct x.
Qed.

Lemma call_all_elements (r : list nat) (f : XmlElement → XmlElement)
    (b : Builder) :
  (∀ x, all_elements P x → all_elements P (f x)) →
  all_elements P (doc_element (document b)) →
  all_elements P (doc_element (document (call r f b))).
Proof. intros Hf Hb. simpl. by apply update_at_all_elements. Qed.

Lemma opentag_all_elements (r : list nat) (tag : Tag) (b : Builder) :
  all_elements P (doc_element (document b)) →
  all_elements P (doc_element (document (_opentag r tag b))).
Proof.
  intros Hb.
  assert (He : ∀ r',
    all_elements P (doc_element (document (XmlElement_opentag r' tag b)))).
  { intros r'. unfold XmlElement_opentag.
    destruct (elem_at r' _); [|done]. cbn [document].
    apply call_all_elements; [|done].
    apply addChild_element_all_elements. }
  destruct r; [|apply He]. unfold _opentag, XmlDocument_opentag.
  case_decide; [|apply He].
  apply call_all_elements; [|done]. apply name_attr_all_elements.
Qed.

Lemma dispatch_all_elements (ev : SaxEvent) (b b' : Builder) :
  all_elements P (doc_element (document b)) →
  dispatch ev b = inr b' →
  all_elements P (doc_element (document b')).
Proof.
  intros Hb. destruct ev; simpl;
    destruct (delegates b) as [|r rs] eqn:Hd; try done;
    try (by intros [= <-]).
  - intros [= <-]. by apply opentag_all_elements.
  - intros [= <-]. apply call_all_elements; [|done].
    apply text_all_elements.
  - intros [= <-]. apply call_all_elements; [|done].
    apply cdata_all_elements.
  - intros [= <-]. apply call_all_elements; [|done].
    apply comment_all_elements.
  - destruct r; by intros [= <-].
Qed.

Lemma write_all_elements (evs : list (SAXParser * SaxEvent))
    (b b' : Builder) :
  all_elements P (doc_element (document b)) →
  write evs b = inr b' →
  all_elements P (doc_element (document b')).
Proof.
  revert b. induction evs as [|pe evs IH]; intros b Hb; simpl.
  { by intros [= <-]. }
  destruct (fire pe b) as [err|b1] eqn:Hf; [done|].
  apply IH. by eapply dispatch_all_elements, Hf.
Qed.

Lemma constructor_all_elements (sax_parser : SAXParser)
    (sax_write : list N → list (SAXParser * SaxEvent))
    (xml : list N) (doc : XmlDocument) :
  XmlDocument_constructor sax_parser sax_write xml = inr doc →
  all_elements P (doc_element doc).
Proof.
  unfold XmlDocument_constructor. case_decide; [done|].
  destruct (write _ _) as [err|b] eqn:Hw; [done|]. intros [= <-].
  simpl. eapply write_all_elements, Hw. simpl.
  apply all_elements_leaf; [|done]. by apply inv_constructor.
Qed.

End BuilderInvariant.

(** ** The value of an element *)

Lemma direct_content_insert_element (l : list XmlNode) (i : nat)
    (c c' : XmlElement) :
  l !! i = Some (XmlElementNode c) →
  direct_content (<[i := XmlElementNode c']> l) = direct_content l.
Proof.
  revert i. induction l as [|x l IH]; intros [|i] Hi; simpl in *; try done.
  - by simplify_eq.
  - unfold direct_content in *. simpl. by rewrite IH.
Qed.

Lemma direct_content_snoc (l : list XmlNode) (n : XmlNode) :
  direct_content (l ++ [n]) = direct_content l ++ node_content n.
Proof.
  unfold direct_content. rewrite flat_map_app. simpl. by rewrite app_nil_r.
Qed.

Lemma val_is_direct_content_invariant :
  builder_invariant val_is_direct_content.
Proof.
  unfold val_is_direct_content. split.
  - done.
  - intros [] i c c' Hi He; simpl in *.
    by erewrite direct_content_insert_element.
  - intros this c H. rewrite val_addChild, children_addChild.
    rewrite direct_content_snoc, H. simpl. by rewrite app_nil_r.
  - intros [] t H; simpl in *. by rewrite direct_content_snoc, H.
  - intros [] t H; simpl in *. by rewrite direct_content_snoc, H.
  - intros this c H. unfold _comment.
    rewrite val_addChild, children_addChild.
    rewrite direct_content_snoc, H. simpl. by rewrite app_nil_r.
  - by intros [].
Qed.

Example mixed_document_built :
  XmlDocument_constructor (parser_at 0 0 0 0) (delivering mixed_events)
    (js "<a>t1<b>in</b><!--c--><![CDATA[t2]]></a>")
  = inr mixed_document.
Proof. vm_compute. reflexivity. Qed.

(** C1: in every document the constructor returns, the [val] of every
    element, the Document included, is the concatenation in order of the
    contents of its own Text and CData children; element and Comment
    children add nothing to it. *)
Theorem val_is_content_of_direct_text_children
    (sax_parser : SAXParser)
    (sax_write : list N → list (SAXParser * SaxEvent))
    (xml : list N) (doc : XmlDocument) (r : list nat) (e : XmlElement) :
  XmlDocument_constructor sax_parser sax_write xml = inr doc →
  elem_at r (doc_element doc) = Some e →
  val e = direct_content (children e).
Proof.
  intros Hdoc He.
  by apply (constructor_all_elements _ val_is_direct_content_invariant
              _ _ _ _ Hdoc r e).
Qed.

(** The Document of [<a>t1<b>in</b><!--c--><![CDATA[t2]]></a>]. *)
Lemma val_is_content_witness :
  XmlDocument_constructor (parser_at 0 0 0 0) (delivering mixed_events)
    (js "<a>t1<b>in</b><!--c--><![CDATA[t2]]></a>")
  = inr mixed_document
  ∧ elem_at [] (doc_element mixed_document)
    = Some (doc_element mixed_document)
  ∧ val (doc_element mixed_document)
    = direct_content (children (doc_element mixed_document)).
Proof.
  split; [vm_compute; reflexivity|]. split; [reflexivity|].
  apply (val_is_content_of_direct_text_children (parser_at 0 0 0 0)
           (delivering mixed_events)
           (js "<a>t1<b>in</b><!--c--><![CDATA[t2]]></a>")
           mixed_document []).
  - vm_compute. reflexivity.
  - reflexivity.
Defined.

(** ** Positions *)

Lemma no_position_invariant : builder_invariant no_position.
Proof.
  unfold no_position. split; by intros [].
Qed.

(** Whatever the lexer's counters are, no element of a parsed document
    carries a position. *)
Lemma parsed_elements_have_no_position
    (sax_parser : SAXParser)
    (sax_write : list N → list (SAXParser * SaxEvent))
    (xml : list N) (doc : XmlDocument) (r : list nat) (e : XmlElement) :
  XmlDocument_constructor sax_parser sax_write xml = inr doc →
  elem_at r (doc_element doc) = Some e →
  no_position e.
Proof.
  intros Hdoc He.
  by apply (constructor_all_elements _ no_position_invariant
              _ _ _ _ Hdoc r e).
Qed.

(** C2, on the input of the ['tag locations'] test: when the open-tag
    event of [book] fires the parser reads start tag position 8, line 0,
    column 31 and position 31, the values the test expects, and the [book]
    element the constructor returns has [null] in all four fields. *)
Theorem tag_locations_are_not_recorded :
  XmlDocument_constructor (parser_at 0 0 0 0) (λ _, tag_locations_events)
    tag_locations_xml
  = inr tag_locations_document
  ∧ tag_locations_events !! 1
    = Some (parser_at 0 31 31 8,
            OnOpenTag (mk_tag "book" [("title", "Twilight")]))
  ∧ children (doc_element tag_locations_document) !! 0
    = Some (XmlElementNode tag_locations_book)
  ∧ attr tag_locations_book !! js "title" = Some (js "Twilight")
  ∧ startTagPosition tag_locations_book = None
  ∧ line tag_locations_book = None
  ∧ column tag_locations_book = None
  ∧ position tag_locations_book = None.
Proof. vm_compute. repeat split; reflexivity. Qed.

(** ** [firstChild] and [lastChild] *)

Lemma ends_are_children_addChild (this : XmlElement) (child : XmlNode) :
  ends_are_children this → ends_are_children (_addChild this child).
Proof.
  destruct this as [n a v ch fc lc li co po st].
  unfold ends_are_children, _addChild. simpl. intros [-> _].
  assert (Hlen : length (ch ++ [child]) - 1 = length ch)
    by (rewrite length_app; simpl; lia).
  rewrite Hlen. by destruct ch.
Qed.

Lemma ends_are_children_invariant : builder_invariant ends_are_children.
Proof.
  split.
  - done.
  - intros [n a v ch fc lc li co po st] i c c' Hi.
    unfold ends_are_children. simpl. rewrite length_insert.
    destruct ch; [done|]. by destruct i.
  - intros this c. apply ends_are_children_addChild.
  - intros this t H. apply ends_are_children_addChild. by destruct this.
  - intros this t H. apply ends_are_children_addChild. by destruct this.
  - intros this t. apply ends_are_children_addChild.
  - by intros [].
Qed.

(** X4: in every document the constructor returns, [firstChild] and
    [lastChild] of every element are the first and the last entry of its
    [children], and [null] when it has none. *)
Theorem firstChild_lastChild_are_the_ends
    (sax_parser : SAXParser)
    (sax_write : list N → list (SAXParser * SaxEvent))
    (xml : list N) (doc : XmlDocument) (r : list nat) (e : XmlElement) :
  XmlDocument_constructor sax_parser sax_write xml = inr doc →
  elem_at r (doc_element doc) = Some e →
  firstChild_node e = head (children e)
  ∧ lastChild_node e = last (children e)
  ∧ (children e = [] → firstChild e = None ∧ lastChild e = None).
Proof.
  intros Hdoc He.
  destruct (constructor_all_elements _ ends_are_children_invariant
              _ _ _ _ Hdoc r e He) as [Hf Hl].
  unfold firstChild_node, lastChild_node. rewrite Hf, Hl.
  destruct (children e) as [|x l] eqn:Hch; [done|].
  split; [done|]. split; [|done]. simpl.
  rewrite Nat.sub_0_r. by rewrite last_lookup.
Qed.

Lemma firstChild_lastChild_witness :
  XmlDocument_constructor (parser_at 0 0 0 0) (delivering mixed_events)
    (js "<a>t1<b>in</b><!--c--><![CDATA[t2]]></a>")
  = inr mixed_document
  ∧ elem_at [] (doc_element mixed_document)
    = Some (doc_element mixed_document)
  ∧ firstChild_node (doc_element mixed_document)
    = Some (XmlTextNode (js "t1"))
  ∧ lastChild_node (doc_element mixed_document)
    = Some (XmlCDataNode (js "t2")).
Proof.
  assert (H1 : XmlDocument_constructor (parser_at 0 0 0 0)
                 (delivering mixed_events)
                 (js "<a>t1<b>in</b><!--c--><![CDATA[t2]]></a>")
               = inr mixed_document) by (vm_compute; reflexivity).
  split; [exact H1|]. split; [reflexivity|].
  destruct (firstChild_lastChild_are_the_ends _ _ _ _ [] _ H1 eq_refl)
    as (-> & -> & _).
  split; reflexivity.
Defined.

(** ** References stay valid

    The builder only appends children, so a reference taken when an
    element is opened leads to that element for the rest of the build:
    the branches of [update_at] and [XmlElement_opentag] for a reference
    that leads nowhere are never run. *)

Lemma elem_at_app (r1 r2 : list nat) (e : XmlElement) :
  elem_at (r1 ++ r2) e = elem_at r1 e ≫= elem_at r2.
Proof.
  revert e. induction r1 as [|i r1 IH]; intros e; simpl; [done|].
  destruct (children e !! i) as [[c| | |]|]; try done.
Qed.

Lemma elem_at_update_at_same (r : list nat) (f : XmlElement → XmlElement)
    (e this : XmlElement) :
  elem_at r e = Some this → elem_at r (update_at r f e) = Some (f this).
Proof.
  revert e. induction r as [|i r IH]; intros e; simpl.
  { by intros [= ->]. }
  destruct (children e !! i) as [[c| | |]|] eqn:Hi; try done.
  intros Hr. destruct e; simpl in *.
  rewrite list_lookup_insert_eq by by eapply lookup_lt_Some.
  by apply IH.
Qed.

Lemma elem_at_update_at_valid (r r' : list nat)
    (f : XmlElement → XmlElement) (e : XmlElement) :
  keeps_children f →
  is_Some (elem_at r' e) → is_Some (elem_at r' (update_at r f e)).
Proof.
  intros Hf. revert r' e. induction r as [|i r IH]; intros r' e Hr'; simpl.
  - destruct r' as [|j r']; simpl in *; [done|].
    destruct (Hf e) as [more ->].
    destruct (children e !! j) as [n|] eqn:Hj; [|by destruct Hr'].
    by rewrite (lookup_app_l_Some _ _ _ _ Hj).
  - destruct (children e !! i) as [[c| | |]|] eqn:Hi; try done.
    destruct r' as [|j r']; simpl in *; [done|].
    destruct e; simpl in *. destruct (decide (i = j)) as [<-|Hne].
    + rewrite list_lookup_insert_eq by by eapply lookup_lt_Some.
      rewrite Hi in Hr'. by apply IH.
    + by rewrite list_lookup_insert_ne.
Qed.

Lemma keeps_children_addChild (child : XmlNode) :
  keeps_children (λ this, _addChild this child).
Proof. intros x. exists [child]. apply children_addChild. Qed.

Lemma keeps_children_text (t : list N) :
  keeps_children (λ this, _text this t).
Proof. intros []. by exists [XmlTextNode t]. Qed.

Lemma keeps_children_cdata (c : list N) :
  keeps_children (λ this, _cdata this c).
Proof. intros []. by exists [XmlCDataNode c]. Qed.

Lemma keeps_children_name_attr (n : list N) (a : gmap (list N) (list N)) :
  keeps_children (λ this, set_name_attr this n a).
Proof. intros []. exists []. simpl. by rewrite app_nil_r. Qed.

Lemma call_delegates_valid (r : list nat) (f : XmlElement → XmlElement)
    (b : Builder) :
  keeps_children f → delegates_valid b → delegates_valid (call r f b).
Proof.
  intros Hf Hb. unfold delegates_valid in *. simpl.
  eapply Forall_impl; [exact Hb|]. intros r' Hr'. simpl in Hr'.
  by apply elem_at_update_at_valid.
Qed.

Lemma XmlElement_opentag_delegates_valid (r : list nat) (tag : Tag)
    (b : Builder) :
  delegates_valid b → delegates_valid (XmlElement_opentag r tag b).
Proof.
  intros Hb. unfold XmlElement_opentag.
  destruct (elem_at r (doc_element (document b))) as [this|] eqn:Hr; [|done].
  apply Forall_cons. split.
  - simpl. rewrite elem_at_app.
    rewrite (elem_at_update_at_same _ _ _ _ Hr).
    cbn [mbind option_bind elem_at].
    rewrite children_addChild, lookup_app_r, Nat.sub_diag by done. by eexists.
  - apply (call_delegates_valid r _ b); [|done].
    apply keeps_children_addChild.
Qed.

Lemma dispatch_delegates_valid (ev : SaxEvent) (b b' : Builder) :
  delegates_valid b → dispatch ev b = inr b' → delegates_valid b'.
Proof.
  intros Hb. destruct ev; simpl;
    destruct (delegates b) as [|r rs] eqn:Hd; try done;
    try (by intros [= <-]).
  - intros [= <-]. destruct r as [|i r]; simpl.
    + unfold XmlDocument_opentag. case_decide.
      * apply call_delegates_valid; [|done]. apply keeps_children_name_attr.
      * by apply XmlElement_opentag_delegates_valid.
    + by apply XmlElement_opentag_delegates_valid.
  - intros [= <-]. unfold delegates_valid in *. simpl. rewrite Hd in *.
    simpl. by apply Forall_cons in Hb as [_ ?].
  - intros [= <-]. apply call_delegates_valid; [|done].
    apply keeps_children_text.
  - intros [= <-]. apply call_delegates_valid; [|done].
    apply keeps_children_cdata.
  - intros [= <-]. apply call_delegates_valid; [|done].
    apply keeps_children_addChild.
  - destruct r; by intros [= <-].
Qed.

Lemma write_delegates_valid (evs : list (SAXParser * SaxEvent))
    (b b' : Builder) :
  delegates_valid b → write evs b = inr b' → delegates_valid b'.
Proof.
  revert b. induction evs as [|pe evs IH]; intros b Hb; simpl.
  { by intros [= <-]. }
  destruct (fire pe b) as [err|b1] eqn:Hf; [done|].
  apply IH. by eapply dispatch_delegates_valid, Hf.
Qed.

Lemma init_builder_delegates_valid (sax_parser : SAXParser) :
  delegates_valid (init_builder sax_parser).
Proof. apply Forall_cons. split; [by eexists|constructor]. Qed.

(** ** Errors and the construction stack *)

Lemma dispatch_raises (ev : SaxEvent) (b : Builder) :
  (∃ err, dispatch ev b = inl err) ↔ raises ev (delegates b).
Proof.
  unfold raises. split.
  - intros [err H]. destruct ev; simpl in H;
      destruct (delegates b) as [|[|??] ?]; try done; [right|left|left];
      eauto.
  - intros [(err & -> & Hs)|(d & -> & Hs)]; simpl.
    + destruct (delegates b); [done|eauto].
    + rewrite Hs. eauto.
Qed.

Lemma fire_raises (pe : SAXParser * SaxEvent) (b : Builder) :
  (∃ err, fire pe b = inl err) ↔ raises (snd pe) (delegates b).
Proof. unfold fire. by rewrite dispatch_raises. Qed.

Lemma write_app (evs1 evs2 : list (SAXParser * SaxEvent)) (b : Builder) :
  write (evs1 ++ evs2) b
  = match write evs1 b with
    | inr b' => write evs2 b'
    | inl err => inl err
    end.
Proof.
  revert b. induction evs1 as [|pe evs1 IH]; intros b; simpl; [done|].
  destruct (fire pe b); [done|]. apply IH.
Qed.

(** [write] throws exactly when some event, met in the state the events
    before it leave, is one whose handler throws. *)
Lemma write_raises (evs : list (SAXParser * SaxEvent)) (b : Builder) :
  (∃ err, write evs b = inl err)
  ↔ ∃ pre pe post b',
      evs = pre ++ pe :: post ∧ write pre b = inr b'
      ∧ raises (snd pe) (delegates b').
Proof.
  revert b. induction evs as [|pe evs IH]; intros b; simpl.
  { split; [by intros [? ?]|]. intros ([|??] & ? & ? & ? & ? & _); done. }
  destruct (fire pe b) as [err|b1] eqn:Hf.
  - split; [|eauto]. intros _. exists [], pe, evs, b.
    split; [done|]. split; [done|]. apply fire_raises. eauto.
  - rewrite IH. split.
    + intros (pre & pe' & post & b' & -> & Hpre & Hr).
      exists (pe :: pre), pe', post, b'. simpl. by rewrite Hf.
    + intros ([|pe0 pre] & pe' & post & b' & Heq & Hpre & Hr);
        simpl in *; simplify_eq.
      * assert (∃ err, fire pe' b' = inl err) as [? ?]
          by by apply fire_raises.
        congruence.
      * rewrite Hf in Hpre. by exists pre, pe', post, b'.
Qed.

Lemma write_quiet (evs : list (SAXParser * SaxEvent)) (b : Builder) :
  Forall quiet evs → ∃ b', write evs b = inr b'.
Proof.
  intros Hq. destruct (write evs b) as [err|b'] eqn:Hw; [|eauto].
  assert (∃ err, write evs b = inl err) as Hr by eauto.
  apply write_raises in Hr as (pre & pe & post & b1 & -> & _ & Hr).
  apply Forall_app in Hq as [_ Hq]. apply Forall_cons in Hq as [[??] _].
  by destruct Hr as [(? & Hev & _)|(? & Hev & _)];
    rewrite Hev in *.
Qed.

(** Once the stack is empty every event but a doctype is dropped. *)
Lemma write_empty_stack (evs : list (SAXParser * SaxEvent)) (b : Builder) :
  delegates b = [] →
  Forall (λ pe, is_doctype (snd pe) = false) evs →
  ∃ b', write evs b = inr b' ∧ delegates b' = []
        ∧ doc_element (document b') = doc_element (document b)
        ∧ doctype (document b') = doctype (document b).
Proof.
  revert b. induction evs as [|[p ev] evs IH]; intros b Hb Hq; simpl.
  { by exists b. }
  apply Forall_cons in Hq as [Hev Hq]. unfold fire. simpl in *.
  destruct ev; simpl; rewrite Hb; try done;
    (edestruct IH as (b' & -> & ? & ? & ?); [..|by exists b']; done).
Qed.




(** The constructor has no check of its own at the end of the input: when
    the input is not empty it throws exactly when a handler does during
    [write], and otherwise returns the Document as the events left it,
    with no look at the stack. *)
Lemma constructor_returns_what_the_events_built
    (sax_parser : SAXParser)
    (sax_write : list N → list (SAXParser * SaxEvent)) (xml : list N) :
  trim xml ≠ [] →
  (∀ b, write (sax_write (trim xml)) (init_builder sax_parser) = inr b →
        XmlDocument_constructor sax_parser sax_write xml
        = inr (set_parser None (document b)))
  ∧ ((∃ err, XmlDocument_constructor sax_parser sax_write xml = inl err)
     ↔ ∃ pre pe post b,
         sax_write (trim xml) = pre ++ pe :: post
         ∧ write pre (init_builder sax_parser) = inr b
         ∧ raises (snd pe) (delegates b))
  ∧ (Forall quiet (sax_write (trim xml)) →
     ∃ doc, XmlDocument_constructor sax_parser sax_write xml = inr doc).
Proof.
  intros Hx. unfold XmlDocument_constructor.
  destruct (decide (trim xml = [])); [done|].
  split; [|split].
  - by intros b ->.
  - rewrite <- write_raises.
    destruct (write _ _); split; intros [? ?]; by eauto.
  - intros [b' ->]%(write_quiet _ (init_builder sax_parser)). eauto.
Qed.

(** The stream of [<a><b>]. *)
Lemma constructor_returns_witness :
  trim (js "<a><b>") ≠ []
  ∧ ∃ doc, XmlDocument_constructor (parser_at 0 0 0 0)
             (delivering open_tags_events) (js "<a><b>") = inr doc.
Proof.
  assert (Hx : trim (js "<a><b>") ≠ []) by (vm_compute; discriminate).
  split; [exact Hx|].
  apply (proj2 (proj2 (constructor_returns_what_the_events_built
                         (parser_at 0 0 0 0) (delivering open_tags_events)
                         (js "<a><b>") Hx))).
  repeat constructor.
Defined.

(** C4, on [<a><b>]: the lexer delivers the two open tags during [write]
    and no error, the event stream ends with [b] and [a] open, two
    entries on the stack, and the constructor returns the Document [a]
    with the child [b], a partially built tree.  The claim has it throw,
    and so have the constructor's docstring, [@throws {Error} If the XML
    is empty or invalid], and the test [throws on malformed XML]; the
    input of that test, [<hello><unclosed-tag></hello>], throws because
    there the lexer reports an error during [write]. *)
Theorem unclosed_tags_return_a_document :
  trim (js "<a><b>") ≠ []
  ∧ stack_after (parser_at 0 0 0 0) (delivering open_tags_events [])
    = Some [[0]; []]
  ∧ XmlDocument_constructor (parser_at 0 0 0 0)
      (delivering open_tags_events) (js "<a><b>")
    = inr open_tags_document
  ∧ children (doc_element open_tags_document)
    = [XmlElementNode (mk_element "b" [] "" [])]
  ∧ XmlDocument_constructor (parser_at 0 0 0 0)
      (delivering mismatched_close_events)
      (js "<hello><unclosed-tag></hello>")
    = inl (LexerError (js "Unexpected close tag")).
Proof.
  split; [vm_compute; discriminate|]. vm_compute. repeat split; reflexivity.
Qed.

(** ** Writes through references *)

Lemma update_at_app (r1 r2 : list nat) (f : XmlElement → XmlElement)
    (e : XmlElement) :
  update_at (r1 ++ r2) f e = update_at r1 (update_at r2 f) e.
Proof.
  revert e. induction r1 as [|i r1 IH]; intros e; simpl; [done|].
  destruct (children e !! i) as [[c| | |]|]; try done. by rewrite IH.
Qed.

Lemma update_at_compose (r : list nat) (f h : XmlElement → XmlElement)
    (e : XmlElement) :
  update_at r f (update_at r h e) = update_at r (λ x, f (h x)) e.
Proof.
  revert e. induction r as [|i r IH]; intros e; simpl; [done|].
  destruct (children e !! i) as [[c| | |]|] eqn:Hi; simpl; rewrite ?Hi;
    try done.
  destruct e as [n a v ch fc lc li co po st]; simpl in *.
  rewrite list_lookup_insert_eq by by eapply lookup_lt_Some.
  by rewrite list_insert_insert_eq, IH.
Qed.

Lemma update_at_ext (r : list nat) (f g : XmlElement → XmlElement)
    (e this : XmlElement) :
  elem_at r e = Some this → f this = g this →
  update_at r f e = update_at r g e.
Proof.
  revert e. induction r as [|i r IH]; intros e; simpl.
  { by intros [= ->]. }
  destruct (children e !! i) as [[c| | |]|]; try done.
  intros Hr Hfg. by rewrite (IH c Hr Hfg).
Qed.

Lemma update_at_id (r : list nat) (e : XmlElement) :
  update_at r (λ x, x) e = e.
Proof.
  revert e. induction r as [|i r IH]; intros e; simpl; [done|].
  destruct (children e !! i) as [[c| | |]|] eqn:Hi; try done.
  rewrite IH, list_insert_id by done. by destruct e.
Qed.

Lemma name_update_at (r : list nat) (f : XmlElement → XmlElement)
    (e : XmlElement) :
  (∀ x, name (f x) = name x ∧ attr (f x) = attr x) →
  name (update_at r f e) = name e ∧ attr (update_at r f e) = attr e.
Proof.
  intros Hf. destruct r as [|i r]; simpl; [apply Hf|].
  by destruct (children e !! i) as [[c| | |]|]; destruct e.
Qed.

Lemma add_node_element_with (tag : Tag) (ch : list XmlNode) (n : XmlNode) :
  add_node (element_with tag ch) n = element_with tag (ch ++ [n]).
Proof.
  assert (Hlen : length (ch ++ [n]) - 1 = length ch)
    by (rewrite length_app; simpl; lia).
  assert (Hfirst : match ch with [] => Some (length ch) | _ :: _ => Some 0 end
                   = match ch ++ [n] with [] => None | _ :: _ => Some 0 end)
    by by destruct ch.
  assert (Hlast : Some (length ch)
                  = match ch ++ [n] with
                    | [] => None
                    | _ :: _ => Some (length (ch ++ [n]) - 1)
                    end)
    by (rewrite Hlen; by destruct ch).
  unfold element_with.
  destruct n; simpl; unfold _text, _cdata, _comment, _addChild; simpl;
    rewrite direct_content_snoc; simpl; rewrite ?app_nil_r;
    rewrite <- Hlast; f_equal; by destruct ch.
Qed.

Lemma add_nodes_element_with (tag : Tag) (ch nodes : list XmlNode) :
  add_nodes (element_with tag ch) nodes = element_with tag (ch ++ nodes).
Proof.
  revert ch. induction nodes as [|n nodes IH]; intros ch; simpl.
  { by rewrite app_nil_r. }
  unfold add_nodes in *. simpl.
  rewrite add_node_element_with, IH. by rewrite <- app_assoc.
Qed.

Lemma add_nodes_app (this : XmlElement) (l1 l2 : list XmlNode) :
  add_nodes this (l1 ++ l2) = add_nodes (add_nodes this l1) l2.
Proof. apply foldl_app. Qed.

Lemma name_add_node (this : XmlElement) (n : XmlNode) :
  name (add_node this n) = name this ∧ attr (add_node this n) = attr this.
Proof. by destruct this, n. Qed.

Lemma name_add_nodes (this : XmlElement) (nodes : list XmlNode) :
  name (add_nodes this nodes) = name this
  ∧ attr (add_nodes this nodes) = attr this.
Proof.
  revert this. induction nodes as [|n nodes IH]; intros this; [done|].
  unfold add_nodes in *. simpl.
  destruct (IH (add_node this n)) as [-> ->]. apply name_add_node.
Qed.

(** Opening a child of [this], filling it and leaving it is adding the
    filled child to [this]. *)
Lemma open_then_fill (r : list nat) (this root : XmlElement) (tag : Tag)
    (nodes : list XmlNode) :
  elem_at r root = Some this →
  update_at (r ++ [length (children this)]) (λ x, add_nodes x nodes)
    (update_at r
       (λ x, _addChild x (XmlElementNode (XmlElement_constructor tag None)))
       root)
  = update_at r
      (λ x, _addChild x (XmlElementNode (element_with tag nodes))) root.
Proof.
  intros Hr. rewrite update_at_app, update_at_compose.
  apply (update_at_ext _ _ _ _ this Hr). cbn [update_at].
  rewrite children_addChild, lookup_app_r, Nat.sub_diag by done.
  cbn [lookup list_lookup].
  change (XmlElement_constructor tag None) with (element_with tag []).
  rewrite add_nodes_element_with, app_nil_l.
  rewrite insert_app_r_alt, Nat.sub_diag by done.
  by destruct this.
Qed.

(** ** The builder on well-nested streams *)

Lemma Tree_nested_ind (P : Tree → Prop) :
  (∀ tag kids, Forall P kids → P (tree_element tag kids)) →
  (∀ t, P (tree_text t)) → (∀ c, P (tree_cdata c)) → (∀ c, P (tree_comment c)) →
  ∀ t, P t.
Proof.
  intros He Ht Hc Hm. fix F 1. intros [tag kids|t|c|c]; [|done..].
  apply He. clear -F. induction kids as [|k kids IH]; constructor.
  - apply F.
  - exact IH.
Qed.

Lemma leaves_trans (b b1 b2 : Builder) (root1 root2 : XmlElement)
    (stack1 stack2 : list (list nat)) :
  leaves b b1 root1 stack1 → leaves b1 b2 root2 stack2 →
  leaves b b2 root2 stack2.
Proof. intros (? & ? & ?) (? & ? & ?). repeat split; congruence. Qed.

Lemma fire_open (p : SAXParser) (tag : Tag) (b : Builder) (r : list nat)
    (rs : list (list nat)) (this : XmlElement) :
  delegates b = r :: rs →
  elem_at r (doc_element (document b)) = Some this →
  (r = [] → name (doc_element (document b)) ≠ []) →
  ∃ b', fire (p, OnOpenTag tag) b = inr b'
        ∧ leaves b b'
            (update_at r
               (λ x, _addChild x
                       (XmlElementNode (XmlElement_constructor tag None)))
               (doc_element (document b)))
            ((r ++ [length (children this)]) :: r :: rs).
Proof.
  intros Hd Hr Hn. unfold fire. simpl. rewrite Hd.
  assert (He : ∀ b0, doc_element (document b0) = doc_element (document b) →
    delegates b0 = r :: rs → doctype (document b0) = doctype (document b) →
    leaves b (XmlElement_opentag r tag b0)
      (update_at r
         (λ x, _addChild x
                 (XmlElementNode (XmlElement_constructor tag None)))
         (doc_element (document b)))
      ((r ++ [length (children this)]) :: r :: rs)).
  { intros b0 H0 Hd0 Ht0. unfold XmlElement_opentag. rewrite H0, Hr.
    repeat split; simpl; by rewrite ?H0, ?Hd0. }
  eexists. split; [done|]. destruct r as [|i r]; simpl.
  - unfold XmlDocument_opentag. simpl.
    rewrite decide_False by by apply Hn. by apply He.
  - by apply He.
Qed.

Lemma fire_close (p : SAXParser) (b : Builder) (r : list nat)
    (rs : list (list nat)) :
  delegates b = r :: rs →
  ∃ b', fire (p, OnCloseTag) b = inr b'
        ∧ leaves b b' (doc_element (document b)) rs.
Proof.
  intros Hd. unfold fire. simpl. rewrite Hd. eexists. split; [done|].
  repeat split; simpl; by rewrite ?Hd.
Qed.

(** The Document takes its name from the open tag it meets unnamed. *)
Lemma fire_adopt (p : SAXParser) (tag : Tag) (b : Builder) :
  delegates b = [[]] →
  name (doc_element (document b)) = [] →
  ∃ b', fire (p, OnOpenTag tag) b = inr b'
        ∧ leaves b b'
            (set_name_attr (doc_element (document b)) (tag_name tag)
               (tag_attributes tag))
            [[]].
Proof.
  intros Hd Hn. unfold fire. simpl. rewrite Hd. simpl.
  unfold XmlDocument_opentag. simpl. rewrite decide_True by done.
  eexists. split; [done|]. by repeat split.
Qed.

Lemma reads_leaf (ev : SaxEvent) (n : XmlNode)
    (f : XmlElement → XmlElement) :
  (∀ b r rs, delegates b = r :: rs → dispatch ev b = inr (call r f b)) →
  (∀ x, f x = add_node x n) →
  ∀ evs b r rs,
    snd <$> evs = [ev] → delegates b = r :: rs →
    ∃ b', write evs b = inr b'
          ∧ leaves b b'
              (update_at r (λ x, add_node x n) (doc_element (document b)))
              (r :: rs).
Proof.
  intros Hev Hf evs b r rs Hevs Hd.
  destruct evs as [|[p ev'] [|??]]; simplify_eq/=.
  unfold fire. simpl. rewrite (Hev _ r rs) by done.
  eexists. split; [done|]. repeat split; simpl; [|done].
  generalize (doc_element (document b)). clear -Hf. intros e.
  revert e. induction r as [|i r IH]; intros e; simpl; [apply Hf|].
  destruct (children e !! i) as [[c| | |]|]; try done. by rewrite IH.
Qed.

Lemma reads_trees_of (kids : list Tree) :
  Forall reads_tree kids → reads_trees kids.
Proof.
  induction 1 as [|t kids Ht _ IH]; intros evs b r rs this Hevs Hd Hr Hn.
  - apply fmap_nil_inv in Hevs as ->. exists b. split; [done|].
    repeat split; try done. simpl. by rewrite update_at_id.
  - simpl in Hevs.
    apply fmap_app_inv in Hevs as (evs1 & evs2 & Hevs1 & Hevs2 & ->).
    destruct (Ht evs1 b r rs this) as (b1 & Hw1 & Hroot1 & Hd1 & Ht1);
      [done..|].
    destruct (IH evs2 b1 r rs (add_node this (node_of t)))
      as (b2 & Hw2 & Hroot2 & Hd2 & Ht2); [done|done| | |].
    { rewrite Hroot1.
      by apply (elem_at_update_at_same r (λ x, add_node x (node_of t))). }
    { intros ->. rewrite Hroot1. simpl.
      destruct (name_add_node (doc_element (document b)) (node_of t))
        as [-> _]. by apply Hn. }
    exists b2. rewrite write_app, Hw1. split; [done|].
    repeat split; [|done|congruence].
    rewrite Hroot2, Hroot1. by rewrite update_at_compose.
Qed.

Lemma reads_every_tree (t : Tree) : reads_tree t.
Proof.
  induction t as [tag kids IH|t|c|c] using Tree_nested_ind.
  - intros evs b r rs this Hevs Hd Hr Hn. simpl in Hevs.
    destruct evs as [|[p ev] evs]; simplify_eq/=.
    apply fmap_app_inv in H0 as (evk & evc & Hevk & Hevc & ->).
    destruct evc as [|[p' ev'] [|??]]; simplify_eq/=.
    destruct (fire_open p tag b r rs this)
      as (b1 & -> & Hroot1 & Hd1 & Ht1); [done..|].
    rewrite write_app.
    destruct (reads_trees_of kids IH evk b1 (r ++ [length (children this)])
                (r :: rs) (XmlElement_constructor tag None))
      as (b2 & -> & Hroot2 & Hd2 & Ht2); [done|done| | |].
    { rewrite Hroot1, elem_at_app.
      rewrite (elem_at_update_at_same _ _ _ _ Hr).
      cbn [mbind option_bind elem_at].
      by rewrite children_addChild, lookup_app_r, Nat.sub_diag. }
    { intros H. by apply app_eq_nil in H as [_ ?]. }
    destruct (fire_close p' b2 _ _ Hd2) as (b3 & Hf3 & Hroot3 & Hd3 & Ht3).
    exists b3. simpl. rewrite Hf3. split; [done|].
    repeat split; [|done|congruence].
    rewrite Hroot3, Hroot2, Hroot1. by apply open_then_fill.
  - intros evs b r rs this Hevs Hd _ _.
    apply (reads_leaf (OnText t) _ (λ x, _text x t)); try done.
    intros b0 r0 rs0 Hd0. simpl. by rewrite Hd0.
  - intros evs b r rs this Hevs Hd _ _.
    apply (reads_leaf (OnCData c) _ (λ x, _cdata x c)); try done.
    intros b0 r0 rs0 Hd0. simpl. by rewrite Hd0.
  - intros evs b r rs this Hevs Hd _ _.
    apply (reads_leaf (OnComment c) _ (λ x, _comment x c)); try done.
    intros b0 r0 rs0 Hd0. simpl. by rewrite Hd0.
Qed.

Lemma reads_all_trees (kids : list Tree) : reads_trees kids.
Proof. apply reads_trees_of, Forall_forall. intros. apply reads_every_tree. Qed.

Lemma events_of_closed (ctx : list (Tag * list Tree)) :
  flat_map events_of (closed ctx)
  = open_events ctx ++ replicate (length ctx) OnCloseTag.
Proof.
  induction ctx as [|[tag kids] ctx IH]; [done|]. simpl.
  rewrite app_nil_r, flat_map_app, IH. f_equal.
  rewrite <- !app_assoc. do 2 f_equal.
  clear. induction (length ctx) as [|k IHk]; [done|].
  simpl. by rewrite IHk.
Qed.

(** A stream that stops with elements open leaves them in the tree as if
    they were closed there, and on the stack. *)
Lemma reads_open_events (ctx : list (Tag * list Tree)) :
  ∀ evs b r rs this,
    snd <$> evs = open_events ctx →
    delegates b = r :: rs →
    elem_at r (doc_element (document b)) = Some this →
    (r = [] → name (doc_element (document b)) ≠ []) →
    ∃ b' stack, write evs b = inr b'
          ∧ leaves b b'
              (update_at r (λ x, add_nodes x (map node_of (closed ctx)))
                 (doc_element (document b)))
              (stack ++ r :: rs)
          ∧ length stack = length ctx.
Proof.
  induction ctx as [|[tag kids] ctx IH]; intros evs b r rs this Hevs Hd Hr Hn.
  { apply fmap_nil_inv in Hevs as ->. exists b, []. split; [done|].
    split; [|done]. repeat split; try done. simpl. by rewrite update_at_id. }
  simpl in Hevs. destruct evs as [|[p ev] evs]; simplify_eq/=.
  apply fmap_app_inv in H0 as (evk & evc & Hevk & Hevc & ->).
  destruct (fire_open p tag b r rs this)
    as (b1 & -> & Hroot1 & Hd1 & Ht1); [done..|].
  rewrite write_app.
  assert (Hr1 : elem_at (r ++ [length (children this)])
                  (doc_element (document b1))
                = Some (XmlElement_constructor tag None)).
  { rewrite Hroot1, elem_at_app.
    rewrite (elem_at_update_at_same _ _ _ _ Hr).
    cbn [mbind option_bind elem_at].
    by rewrite children_addChild, lookup_app_r, Nat.sub_diag. }
  destruct (reads_all_trees kids evk b1 (r ++ [length (children this)])
              (r :: rs) (XmlElement_constructor tag None))
    as (b2 & -> & Hroot2 & Hd2 & Ht2); [done|done|done| |].
  { intros H. by apply app_eq_nil in H as [_ ?]. }
  destruct (IH evc b2 (r ++ [length (children this)]) (r :: rs)
              (add_nodes (XmlElement_constructor tag None)
                 (map node_of kids)))
    as (b3 & stack & Hw3 & (Hroot3 & Hd3 & Ht3) & Hlen); [done|done| | |].
  { rewrite Hroot2.
    by apply (elem_at_update_at_same _
                (λ x, add_nodes x (map node_of kids))). }
  { intros H. by apply app_eq_nil in H as [_ ?]. }
  exists b3, (stack ++ [r ++ [length (children this)]]).
  split; [done|]. split.
  - repeat split; [|by rewrite <- app_assoc|congruence].
    rewrite Hroot3, Hroot2, Hroot1, update_at_compose.
    rewrite <- (open_then_fill r this _ tag
                  (map node_of (kids ++ closed ctx)) Hr).
    apply (update_at_ext _ _ _ _ (XmlElement_constructor tag None)).
    + rewrite <- Hroot1. exact Hr1.
    + by rewrite map_app, add_nodes_app.
  - rewrite length_app. simpl. lia.
Qed.

Lemma reads_prolog (evs : list (SAXParser * SaxEvent)) (b : Builder) :
  Forall (λ ev, is_prolog ev = true) (snd <$> evs) →
  delegates b = [[]] →
  ∃ b', write evs b = inr b'
        ∧ doc_element (document b')
          = add_nodes (doc_element (document b)) (prolog_nodes (snd <$> evs))
        ∧ delegates b' = [[]]
        ∧ doctype (document b')
          = doctype (document b) ++ prolog_doctype (snd <$> evs).
Proof.
  revert b. induction evs as [|[p ev] evs IH]; intros b Hp Hd.
  { exists b. simpl. by rewrite app_nil_r. }
  rewrite fmap_cons in Hp. apply Forall_cons in Hp as [Hev Hp].
  simpl in Hev. destruct ev; try done; simpl; unfold fire; simpl; rewrite Hd.
  - edestruct IH as (b' & -> & Hroot & Hd' & Ht); [done|done|].
    exists b'. split; [done|]. simpl in *. rewrite Hroot, Ht. done.
  - edestruct IH as (b' & -> & Hroot & Hd' & Ht); [done|done|].
    exists b'. split; [done|]. simpl in *. rewrite Hroot, Ht.
    by rewrite <- app_assoc.
Qed.

(** The run of the constructor up to the point where a well-nested stream
    stops. *)
Lemma reads_document (sax_parser : SAXParser)
    (evs : list (SAXParser * SaxEvent)) (prolog : list SaxEvent)
    (tag : Tag) (kids : list Tree) (ctx : list (Tag * list Tree)) :
  snd <$> evs
  = prolog ++ OnOpenTag tag :: flat_map events_of kids ++ open_events ctx →
  Forall (λ ev, is_prolog ev = true) prolog →
  tag_name tag ≠ [] →
  ∃ b stack, write evs (init_builder sax_parser) = inr b
    ∧ doc_element (document b)
      = element_with tag
          (prolog_nodes prolog ++ map node_of (kids ++ closed ctx))
    ∧ delegates b = stack ++ [[]] ∧ length stack = length ctx
    ∧ doctype (document b) = prolog_doctype prolog.
Proof.
  intros Hevs Hp Hn.
  apply fmap_app_inv in Hevs as (evp & evr & -> & Hevr & ->).
  symmetry in Hevr.
  apply fmap_cons_inv in Hevr as ([p ev] & evr' & Hev & Hevr & ->).
  simpl in Hev. subst ev. symmetry in Hevr.
  apply fmap_app_inv in Hevr as (evk & evc & Hevk & Hevc & ->).
  destruct (reads_prolog evp (init_builder sax_parser))
    as (b0 & Hw0 & Hroot0 & Hd0 & Ht0); [done|done|].
  change (doc_element (document (init_builder sax_parser)))
    with (element_with no_tag []) in Hroot0.
  rewrite add_nodes_element_with in Hroot0. simpl in Hroot0, Ht0.
  destruct (fire_adopt p tag b0) as (b1 & Hf1 & Hroot1 & Hd1 & Ht1);
    [done|by rewrite Hroot0|].
  rewrite Hroot0 in Hroot1.
  change (set_name_attr (element_with no_tag (prolog_nodes evp.*2))
            (tag_name tag) (tag_attributes tag))
    with (element_with tag (prolog_nodes evp.*2)) in Hroot1.
  destruct (reads_all_trees kids evk b1 [] [] (doc_element (document b1)))
    as (b2 & Hw2 & Hroot2 & Hd2 & Ht2); [done|done|done| |].
  { intros _. by rewrite Hroot1. }
  destruct (reads_open_events ctx evc b2 [] [] (doc_element (document b2)))
    as (b3 & stack & Hw3 & (Hroot3 & Hd3 & Ht3) & Hlen); [done|done|done| |].
  { intros _. rewrite Hroot2, Hroot1. simpl.
    destruct (name_add_nodes (element_with tag (prolog_nodes evp.*2))
                (map node_of kids)) as [-> _]. done. }
  exists b3, stack. rewrite write_app, Hw0. simpl. rewrite Hf1.
  rewrite write_app, Hw2. split; [done|]. split; [|split; [done|]].
  - rewrite Hroot3, Hroot2, Hroot1. simpl.
    rewrite !add_nodes_element_with. by rewrite map_app, app_assoc.
  - split; [done|]. congruence.
Qed.

(** X5: a well-formed stream builds its tree.  When the lexer delivers
    doctype and comment events, then the events of one root element with
    well-nested content, then anything but a doctype event, the
    constructor returns the Document that has the root's name and
    attributes, the comments of the prolog and then the root's content as
    children, each element with its own content in turn, and the doctype
    texts joined. *)
Theorem well_formed_stream_builds_its_tree
    (sax_parser : SAXParser)
    (sax_write : list N → list (SAXParser * SaxEvent)) (xml : list N)
    (prolog epilogue : list SaxEvent) (tag : Tag) (kids : list Tree) :
  trim xml ≠ [] →
  tag_name tag ≠ [] →
  Forall (λ ev, is_prolog ev = true) prolog →
  Forall (λ ev, is_doctype ev = false) epilogue →
  snd <$> sax_write (trim xml)
  = prolog ++ events_of (tree_element tag kids) ++ epilogue →
  XmlDocument_constructor sax_parser sax_write xml
  = inr {| doc_element :=
             element_with tag (prolog_nodes prolog ++ map node_of kids);
           doctype := prolog_doctype prolog;
           parser := None |}.
Proof.
  intros Hx Hn Hp He Hevs. unfold XmlDocument_constructor.
  rewrite decide_False by done.
  assert (Hevs' : snd <$> sax_write (trim xml)
    = (prolog ++ OnOpenTag tag :: flat_map events_of kids ++ open_events [])
      ++ OnCloseTag :: epilogue).
  { rewrite Hevs. simpl. rewrite app_nil_r.
    rewrite <- (app_assoc prolog). simpl. by rewrite <- app_assoc. }
  apply fmap_app_inv in Hevs' as (ev1 & ev2 & Hev1 & Hev2 & ->).
  symmetry in Hev1, Hev2.
  apply fmap_cons_inv in Hev2 as ([p ev] & eve & Hev & Heve & ->).
  simpl in Hev. subst ev.
  destruct (reads_document sax_parser ev1 prolog tag kids [] Hev1 Hp Hn)
    as (b & stack & Hw & Hroot & Hd & Hlen & Ht).
  destruct stack; [|done]. simpl in Hd.
  rewrite write_app, Hw. simpl.
  destruct (fire_close p b _ _ Hd) as (b1 & -> & Hroot1 & Hd1 & Ht1).
  destruct (write_empty_stack eve b1) as (b2 & -> & Hd2 & Hroot2 & Ht2);
    [done| |].
  { rewrite Heve in He. by apply Forall_fmap in He. }
  f_equal. destruct b2 as [[root2 dt2 ps2] st2]. simpl in *.
  unfold set_parser. simpl. rewrite app_nil_r in Hroot. congruence.
Qed.

Lemma well_formed_stream_witness :
  trim (js "<a>t1<b>in</b><!--c--><![CDATA[t2]]></a>") ≠ []
  ∧ tag_name (mk_tag "a" []) ≠ []
  ∧ XmlDocument_constructor (parser_at 0 0 0 0) (delivering mixed_events)
      (js "<a>t1<b>in</b><!--c--><![CDATA[t2]]></a>")
    = inr {| doc_element :=
               element_with (mk_tag "a" [])
                 (prolog_nodes [] ++ map node_of mixed_kids);
             doctype := prolog_doctype [];
             parser := None |}.
Proof.
  assert (Hx : trim (js "<a>t1<b>in</b><!--c--><![CDATA[t2]]></a>") ≠ [])
    by (vm_compute; discriminate).
  assert (Hn : tag_name (mk_tag "a" []) ≠ []) by (vm_compute; discriminate).
  split; [exact Hx|]. split; [exact Hn|].
  apply (well_formed_stream_builds_its_tree (parser_at 0 0 0 0)
           (delivering mixed_events) _ [] [] (mk_tag "a" []) mixed_kids
           Hx Hn).
  - constructor.
  - constructor.
  - vm_compute. reflexivity.
Defined.

(** X6: a stream that stops with elements open gives the Document of
    the same stream with the missing close events put at its end: the
    open elements are in the tree with the content read so far. *)
Theorem unclosed_elements_are_kept_as_read
    (sax_parser : SAXParser)
    (sax_write : list N → list (SAXParser * SaxEvent)) (xml : list N)
    (prolog : list SaxEvent) (tag : Tag) (kids : list Tree)
    (ctx : list (Tag * list Tree)) :
  trim xml ≠ [] →
  tag_name tag ≠ [] →
  Forall (λ ev, is_prolog ev = true) prolog →
  snd <$> sax_write (trim xml)
  = prolog ++ OnOpenTag tag :: flat_map events_of kids ++ open_events ctx →
  XmlDocument_constructor sax_parser sax_write xml
  = inr {| doc_element :=
             element_with tag
               (prolog_nodes prolog ++ map node_of (kids ++ closed ctx));
           doctype := prolog_doctype prolog;
           parser := None |}
  ∧ (OnOpenTag tag :: flat_map events_of kids ++ open_events ctx)
    ++ replicate (S (length ctx)) OnCloseTag
    = events_of (tree_element tag (kids ++ closed ctx)).
Proof.
  intros Hx Hn Hp Hevs. split.
  - unfold XmlDocument_constructor. rewrite decide_False by done.
    destruct (reads_document sax_parser _ prolog tag kids ctx Hevs Hp Hn)
      as (b & stack & -> & Hroot & Hd & Hlen & Ht).
    f_equal. destruct b as [[root dt ps] st]. simpl in *.
    unfold set_parser. simpl. congruence.
  - simpl. f_equal. rewrite flat_map_app, events_of_closed.
    rewrite <- !app_assoc. do 2 f_equal.
    clear. induction (length ctx) as [|k IHk]; [done|].
    simpl. by rewrite IHk.
Qed.

Lemma unclosed_elements_witness :
  trim (js "<a><b>x") ≠ []
  ∧ tag_name (mk_tag "a" []) ≠ []
  ∧ XmlDocument_constructor (parser_at 0 0 0 0)
      (delivering unclosed_events) (js "<a><b>x")
    = inr {| doc_element :=
               element_with (mk_tag "a" [])
                 (prolog_nodes []
                  ++ map node_of
                       ([] ++ closed [(mk_tag "b" [], [tree_text (js "x")])]));
             doctype := prolog_doctype [];
             parser := None |}.
Proof.
  assert (Hx : trim (js "<a><b>x") ≠ []) by (vm_compute; discriminate).
  assert (Hn : tag_name (mk_tag "a" []) ≠ []) by (vm_compute; discriminate).
  split; [exact Hx|]. split; [exact Hn|].
  apply (unclosed_elements_are_kept_as_read (parser_at 0 0 0 0)
           (delivering unclosed_events) _ [] (mk_tag "a" []) []
           [(mk_tag "b" [], [tree_text (js "x")])] Hx Hn).
  - constructor.
  - vm_compute. reflexivity.
Defined.

(** X7: a lexer error event that arrives before the root element is
    closed, in the prolog or anywhere inside the root, makes the
    constructor throw that error, whatever the events after it are. *)
Theorem lexer_error_before_root_close_is_thrown
    (sax_parser : SAXParser)
    (sax_write : list N → list (SAXParser * SaxEvent)) (xml : list N)
    (prolog post : list SaxEvent) (tag : Tag) (kids : list Tree)
    (ctx : list (Tag * list Tree)) (err : list N) :
  trim xml ≠ [] →
  tag_name tag ≠ [] →
  Forall (λ ev, is_prolog ev = true) prolog →
  (snd <$> sax_write (trim xml) = prolog ++ OnError err :: post
   ∨ snd <$> sax_write (trim xml)
     = (prolog ++ OnOpenTag tag :: flat_map events_of kids ++ open_events ctx)
       ++ OnError err :: post) →
  XmlDocument_constructor sax_parser sax_write xml = inl (LexerError err).
Proof.
  intros Hx Hn Hp Hevs. unfold XmlDocument_constructor.
  rewrite decide_False by done.
  assert (∃ ev1 p evpost b r rs,
    sax_write (trim xml) = ev1 ++ (p, OnError err) :: evpost
    ∧ write ev1 (init_builder sax_parser) = inr b
    ∧ delegates b = r :: rs) as (ev1 & p & evpost & b & r & rs & -> & Hw & Hd).
  { destruct Hevs as [Hevs|Hevs];
      apply fmap_app_inv in Hevs as (ev1 & ev2 & Hev1 & Hev2 & Heq);
      symmetry in Hev1, Hev2;
      apply fmap_cons_inv in Hev2 as ([p ev] & evpost & Hev & _ & ->);
      simpl in Hev; subst ev.
    - destruct (reads_prolog ev1 (init_builder sax_parser))
        as (b & Hw & _ & Hd & _); [by rewrite Hev1|done|].
      by exists ev1, p, evpost, b, [], [].
    - destruct (reads_document sax_parser ev1 prolog tag kids ctx Hev1 Hp Hn)
        as (b & stack & Hw & _ & Hd & _).
      destruct stack as [|r stack]; simpl in Hd.
      + by exists ev1, p, evpost, b, [], [].
      + by exists ev1, p, evpost, b, r, (stack ++ [[]]). }
  rewrite write_app, Hw. simpl. unfold fire. simpl. by rewrite Hd.
Qed.

Lemma lexer_error_witness :
  trim (js "<a><b>x</c>") ≠ []
  ∧ tag_name (mk_tag "a" []) ≠ []
  ∧ XmlDocument_constructor (parser_at 0 0 0 0)
      (delivering (unclosed_events ++ [OnError (js "Unexpected close tag")]))
      (js "<a><b>x</c>")
    = inl (LexerError (js "Unexpected close tag")).
Proof.
  assert (Hx : trim (js "<a><b>x</c>") ≠ []) by (vm_compute; discriminate).
  assert (Hn : tag_name (mk_tag "a" []) ≠ []) by (vm_compute; discriminate).
  split; [exact Hx|]. split; [exact Hn|].
  apply (lexer_error_before_root_close_is_thrown (parser_at 0 0 0 0) _ _
           [] [] (mk_tag "a" []) []
           [(mk_tag "b" [], [tree_text (js "x")])] _ Hx Hn).
  - constructor.
  - right. vm_compute. reflexivity.
Defined.

(** ** The Document's own fields *)

Lemma dispatch_keeps_name (ev : SaxEvent) (b b' : Builder) :
  name (doc_element (document b)) ≠ [] →
  dispatch ev b = inr b' →
  name (doc_element (document b')) = name (doc_element (document b))
  ∧ attr (doc_element (document b')) = attr (doc_element (document b)).
Proof.
  intros Hn.
  assert (Hcall : ∀ r f,
    (∀ x, name (f x) = name x ∧ attr (f x) = attr x) →
    name (doc_element (document (call r f b)))
    = name (doc_element (document b))
    ∧ attr (doc_element (document (call r f b)))
      = attr (doc_element (document b))).
  { intros r f Hf. simpl. by apply name_update_at. }
  assert (Hopen : ∀ r tag,
    name (doc_element (document (XmlElement_opentag r tag b)))
    = name (doc_element (document b))
    ∧ attr (doc_element (document (XmlElement_opentag r tag b)))
      = attr (doc_element (document b))).
  { intros r tag. unfold XmlElement_opentag.
    destruct (elem_at r _); [|done]. cbn [document].
    apply Hcall. by intros []. }
  destruct ev; simpl; destruct (delegates b) as [|r rs] eqn:Hd; try done;
    try (by intros [= <-]).
  - intros [= <-]. destruct r; simpl; [|apply Hopen].
    unfold XmlDocument_opentag. rewrite decide_False by done. apply Hopen.
  - intros [= <-]. apply Hcall. by intros [].
  - intros [= <-]. apply Hcall. by intros [].
  - intros [= <-]. apply Hcall. by intros [].
  - destruct r; by intros [= <-].
Qed.

Lemma write_keeps_name (evs : list (SAXParser * SaxEvent)) (b b' : Builder) :
  name (doc_element (document b)) ≠ [] →
  write evs b = inr b' →
  name (doc_element (document b')) = name (doc_element (document b))
  ∧ attr (doc_element (document b')) = attr (doc_element (document b)).
Proof.
  revert b. induction evs as [|pe evs IH]; intros b Hn; simpl.
  { by intros [= <-]. }
  destruct (fire pe b) as [err|b1] eqn:Hf; [done|]. intros Hw.
  apply dispatch_keeps_name in Hf as [Hn1 Ha1]; [|done]. simpl in *.
  destruct (IH b1) as [-> ->]; [congruence|done|done].
Qed.

Lemma dispatch_keeps_doctype (ev : SaxEvent) (b b' : Builder) :
  is_doctype ev = false →
  dispatch ev b = inr b' →
  doctype (document b') = doctype (document b).
Proof.
  intros Hev. destruct ev; try done; simpl;
    destruct (delegates b) as [|r rs]; try done; try (by intros [= <-]).
  intros [= <-]. destruct r; simpl; [|by unfold XmlElement_opentag;
                                       destruct (elem_at _ _)].
  unfold XmlDocument_opentag. case_decide; [done|].
  unfold XmlElement_opentag. by destruct (elem_at _ _).
Qed.

Lemma write_keeps_doctype (evs : list (SAXParser * SaxEvent))
    (b b' : Builder) :
  Forall (λ ev, is_doctype ev = false) (snd <$> evs) →
  write evs b = inr b' →
  doctype (document b') = doctype (document b).
Proof.
  revert b. induction evs as [|pe evs IH]; intros b Hq; simpl.
  { by intros [= <-]. }
  rewrite fmap_cons in Hq. apply Forall_cons in Hq as [Hev Hq].
  destruct (fire pe b) as [err|b1] eqn:Hf; [done|]. intros Hw.
  apply dispatch_keeps_doctype in Hf; [|done]. simpl in Hf.
  rewrite (IH b1 Hq Hw). done.
Qed.

(** X8: the first open tag names the Document for good.  When the
    events before the first open-tag event are doctype and comment events
    and the constructor returns, the Document has the name and the
    attributes of that tag, whatever comes after it; and its doctype is
    the doctype texts of the prolog joined, when no doctype event comes
    later. *)
Theorem first_open_tag_names_the_document
    (sax_parser : SAXParser)
    (sax_write : list N → list (SAXParser * SaxEvent)) (xml : list N)
    (prolog post : list SaxEvent) (tag : Tag) (doc : XmlDocument) :
  tag_name tag ≠ [] →
  Forall (λ ev, is_prolog ev = true) prolog →
  snd <$> sax_write (trim xml) = prolog ++ OnOpenTag tag :: post →
  XmlDocument_constructor sax_parser sax_write xml = inr doc →
  name (doc_element doc) = tag_name tag
  ∧ attr (doc_element doc) = tag_attributes tag
  ∧ (Forall (λ ev, is_doctype ev = false) post →
     doctype doc = prolog_doctype prolog).
Proof.
  intros Hn Hp Hevs. unfold XmlDocument_constructor.
  case_decide; [done|].
  apply fmap_app_inv in Hevs as (ev1 & ev2 & Hev1 & Hev2 & ->).
  symmetry in Hev1, Hev2.
  apply fmap_cons_inv in Hev2 as ([p ev] & evpost & Hev & Hpost & ->).
  simpl in Hev. subst ev.
  destruct (reads_prolog ev1 (init_builder sax_parser))
    as (b0 & Hw0 & Hroot0 & Hd0 & Ht0); [by rewrite Hev1|done|].
  change (doc_element (document (init_builder sax_parser)))
    with (element_with no_tag []) in Hroot0.
  rewrite add_nodes_element_with in Hroot0. simpl in Hroot0, Ht0.
  destruct (fire_adopt p tag b0) as (b1 & Hf1 & Hroot1 & Hd1 & Ht1);
    [done|by rewrite Hroot0|].
  rewrite write_app, Hw0. simpl. rewrite Hf1.
  destruct (write evpost b1) as [err|b2] eqn:Hw2; [done|].
  intros [= <-]. simpl.
  destruct (write_keeps_name evpost b1 b2) as [-> ->];
    [by rewrite Hroot1; destruct (doc_element (document b0))|done|].
  rewrite Hroot1. split; [by destruct (doc_element (document b0))|].
  split; [by destruct (doc_element (document b0))|].
  intros Hq. rewrite (write_keeps_doctype evpost b1 b2); [|by rewrite <- Hpost|done].
  rewrite Ht1, Ht0. by rewrite Hev1.
Qed.

Lemma first_open_tag_witness :
  tag_name (mk_tag "a" []) ≠ []
  ∧ name (doc_element unclosed_document) = js "a".
Proof.
  assert (Hn : tag_name (mk_tag "a" []) ≠ []) by (vm_compute; discriminate).
  split; [exact Hn|].
  refine (proj1 (first_open_tag_names_the_document (parser_at 0 0 0 0)
                   (delivering unclosed_events) (js "<a><b>x") []
                   [OnOpenTag (mk_tag "b" []); OnText (js "x")]
                   (mk_tag "a" []) unclosed_document Hn _ _ _)).
  - constructor.
  - vm_compute. reflexivity.
  - vm_compute. reflexivity.
Defined.

(** ** [childrenNamed] *)

Lemma childrenNamed_from_filter (rest : list XmlNode) (n : list N)
    (matches : list XmlElement) :
  XmlElementNode <$> childrenNamed_from rest n matches
  = (XmlElementNode <$> matches) ++ List.filter (is_element_named n) rest.
Proof.
  revert matches. induction rest as [|child rest IH]; intros matches; simpl.
  { by rewrite app_nil_r. }
  destruct child as [c| | |]; simpl; try apply IH.
  rewrite (bool_decide_decide (name c = n)).
  destruct (decide (name c = n)); simpl; [|apply IH].
  rewrite IH, fmap_app. simpl. by rewrite <- app_assoc.
Qed.

Lemma filter_sublist {A} (p : A → bool) (l : list A) :
  sublist (List.filter p l) l.
Proof.
  induction l as [|x l IH]; simpl; [constructor|].
  destruct (p x); by constructor.
Qed.

(** C8: [childrenNamed(n)] is [children] with everything but the elements
    called [n] left out: a subsequence of [children] in the same order,
    holding every such element and nothing else, and empty when there is
    none. *)
Theorem childrenNamed_is_the_filtered_children
    (this : XmlElement) (n : list N) :
  XmlElementNode <$> childrenNamed this n
  = List.filter (is_element_named n) (children this)
  ∧ sublist (XmlElementNode <$> childrenNamed this n) (children this)
  ∧ (∀ c, c ∈ childrenNamed this n
          ↔ XmlElementNode c ∈ children this ∧ name c = n)
  ∧ ((∀ c, XmlElementNode c ∈ children this → name c ≠ n) →
     childrenNamed this n = []).
Proof.
  assert (Heq : XmlElementNode <$> childrenNamed this n
                = List.filter (is_element_named n) (children this)).
  { unfold childrenNamed. by rewrite childrenNamed_from_filter. }
  assert (Hin : ∀ c, c ∈ childrenNamed this n
                ↔ XmlElementNode c ∈ children this ∧ name c = n).
  { intros c. split.
    - intros Hc. apply (list_elem_of_fmap_2 XmlElementNode) in Hc.
      rewrite Heq in Hc. apply list_elem_of_In, filter_In in Hc as [Hc Hn].
      split; [by apply list_elem_of_In|]. simpl in Hn.
      by apply bool_decide_eq_true in Hn.
    - intros [Hc Hn].
      assert (H : XmlElementNode c ∈ XmlElementNode <$> childrenNamed this n).
      { rewrite Heq. apply list_elem_of_In, filter_In.
        split; [by apply list_elem_of_In|]. simpl.
        by apply bool_decide_eq_true. }
      apply list_elem_of_fmap in H as (c' & [= <-] & H). done. }
  split; [done|]. split; [rewrite Heq; apply filter_sublist|].
  split; [done|].
  intros Hnone. destruct (childrenNamed this n) as [|c l] eqn:Hl; [done|].
  destruct (Hin c) as [[Hc Hn] _]; [left|].
  by destruct (Hnone c Hc).
Qed.

(** No child of [<a>x<b/><!--c--><c/><![CDATA[y]]><d/></a>] is called
    [e]; one is called [c]. *)
Lemma childrenNamed_witness :
  (∀ c, XmlElementNode c ∈ children five_children → name c ≠ js "e")
  ∧ childrenNamed five_children (js "e") = []
  ∧ childrenNamed five_children (js "c") = [mk_element "c" [] "" []].
Proof.
  assert (H : ∀ c, XmlElementNode c ∈ children five_children →
                   name c ≠ js "e").
  { intros c Hc. simpl in Hc.
    repeat (apply elem_of_cons in Hc as [Hc|Hc];
            [try discriminate Hc; injection Hc as ->; vm_compute;
             discriminate|]).
    by apply elem_of_nil in Hc. }
  split; [exact H|]. split; [|vm_compute; reflexivity].
  exact (proj2 (proj2 (proj2
           (childrenNamed_is_the_filtered_children five_children (js "e"))))
           H).
Defined.

(** ** [childWithAttribute] *)

Lemma childWithAttribute_first_element (this : XmlElement) (n : list N)
    (value : option (list N)) :
  childWithAttribute this n value
  = first_element (λ c, attribute_matches c n value) (children this).
Proof.
  unfold childWithAttribute. induction (children this) as [|[] l IH]; simpl;
    by rewrite ?IH.
Qed.

Example isbn_document_built :
  XmlDocument_constructor (parser_at 0 0 0 0) (delivering isbn_events)
    isbn_xml = inr isbn_document.
Proof. vm_compute. reflexivity. Qed.

(** C7, on [<books><book isbn=''/><book isbn='123'/></books>]: the first
    [book] has the attribute [isbn] defined, as the empty string, and
    [childWithAttribute("isbn")] passes over it and returns the second
    [book]; on a parent that holds the first [book] alone it returns
    [undefined]. *)
Theorem childWithAttribute_skips_empty_attribute :
  children (doc_element isbn_document) !! 0
  = Some (XmlElementNode (mk_element "book" [("isbn", "")] "" []))
  ∧ attr (mk_element "book" [("isbn", "")] "" []) !! js "isbn" = Some []
  ∧ childWithAttribute (doc_element isbn_document) (js "isbn") None
    = Some (mk_element "book" [("isbn", "123")] "" [])
  ∧ childWithAttribute
      (mk_element "books" [] ""
         [XmlElementNode (mk_element "book" [("isbn", "")] "" [])])
      (js "isbn") None
    = None
  ∧ childWithAttribute (doc_element isbn_document) (js "isbn") (Some [])
    = Some (mk_element "book" [("isbn", "")] "" []).
Proof. vm_compute. repeat split; reflexivity. Qed.

(** ** First matching child *)

Lemma first_element_Some (p : XmlElement → bool) (l : list XmlNode)
    (c : XmlElement) :
  first_element p l = Some c
  ↔ ∃ i, l !! i = Some (XmlElementNode c) ∧ p c = true
         ∧ ∀ j c', j < i → l !! j = Some (XmlElementNode c') → p c' = false.
Proof.
  induction l as [|x l IH]; simpl.
  { split; [done|]. by intros (i & ? & _). }
  assert (Hskip : (∀ c', x = XmlElementNode c' → p c' = false) →
    first_element p l = Some c
    ↔ ∃ i, (x :: l) !! i = Some (XmlElementNode c) ∧ p c = true
           ∧ ∀ j c', j < i → (x :: l) !! j = Some (XmlElementNode c') →
                     p c' = false).
  { intros Hx. rewrite IH. split.
    - intros (i & Hi & Hp & Hmin). exists (S i). split; [done|].
      split; [done|]. intros [|j] c' Hj Hc'; simpl in Hc'.
      + injection Hc' as ->. by apply Hx.
      + apply (Hmin j); [lia|done].
    - intros ([|i] & Hi & Hp & Hmin); simpl in Hi.
      + injection Hi as ->. rewrite (Hx c eq_refl) in Hp. done.
      + exists i. split; [done|]. split; [done|].
        intros j c' Hj Hc'. apply (Hmin (S j)); [lia|done]. }
  destruct x as [e| | |]; try (by apply Hskip).
  destruct (p e) eqn:He; [|apply Hskip; by intros ? [= <-]].
  split.
  - intros [= <-]. exists 0. split; [done|]. split; [done|]. lia.
  - intros ([|i] & Hi & Hp & Hmin); simpl in Hi; [by simplify_eq|].
    specialize (Hmin 0 e). simpl in Hmin.
    rewrite Hmin in He; [done|lia|done].
Qed.

Lemma first_element_None (p : XmlElement → bool) (l : list XmlNode) :
  first_element p l = None
  ↔ ∀ i c, l !! i = Some (XmlElementNode c) → p c = false.
Proof.
  induction l as [|x l IH]; simpl.
  { split; [by intros _ ??|done]. }
  assert (Hskip : (∀ c', x = XmlElementNode c' → p c' = false) →
    first_element p l = None
    ↔ ∀ i c, (x :: l) !! i = Some (XmlElementNode c) → p c = false).
  { intros Hx. rewrite IH. split.
    - intros H [|i] c Hi; simpl in Hi; [|by eapply H].
      injection Hi as ->. by apply Hx.
    - intros H i c Hi. by apply (H (S i)). }
  destruct x as [e| | |]; try (by apply Hskip).
  destruct (p e) eqn:He; [|apply Hskip; by intros ? [= <-]].
  split; [done|]. intros H. specialize (H 0 e eq_refl). congruence.
Qed.

Lemma childNamed_first_element (this : XmlElement) (n : list N) :
  childNamed this n
  = first_element (λ c, bool_decide (name c = n)) (children this).
Proof.
  unfold childNamed. induction (children this) as [|[] l IH]; simpl;
    try done.
  rewrite (bool_decide_decide (name element = n)).
  by destruct (decide (name element = n)).
Qed.

Lemma childrenNamed_from_app (rest : list XmlNode) (n : list N)
    (matches : list XmlElement) :
  childrenNamed_from rest n matches
  = matches ++ childrenNamed_from rest n [].
Proof.
  revert matches. induction rest as [|x rest IH]; intros matches; simpl.
  { by rewrite app_nil_r. }
  destruct x; try apply IH. case_decide; [|apply IH].
  rewrite (IH (matches ++ [element])), (IH [element]).
  by rewrite <- app_assoc.
Qed.

(** X9: [childNamed(n)] returns the element child called [n] that comes
    first in [children], [undefined] exactly when no element child is
    called [n], and in both cases the head of [childrenNamed(n)]. *)
Theorem childNamed_is_first_named_child (this : XmlElement) (n : list N) :
  (∀ c, childNamed this n = Some c
        ↔ ∃ i, children this !! i = Some (XmlElementNode c) ∧ name c = n
               ∧ ∀ j c', j < i →
                   children this !! j = Some (XmlElementNode c') →
                   name c' ≠ n)
  ∧ (childNamed this n = None
     ↔ ∀ i c, children this !! i = Some (XmlElementNode c) → name c ≠ n)
  ∧ childNamed this n = head (childrenNamed this n).
Proof.
  split; [|split].
  - intros c. rewrite childNamed_first_element, first_element_Some.
    setoid_rewrite bool_decide_eq_true.
    setoid_rewrite bool_decide_eq_false. done.
  - rewrite childNamed_first_element, first_element_None.
    by setoid_rewrite bool_decide_eq_false.
  - unfold childNamed, childrenNamed.
    induction (children this) as [|[] l IH]; simpl; try done.
    case_decide; [|done]. by rewrite childrenNamed_from_app.
Qed.

(** A property read gives a string exactly for an own property: what
    [Object.prototype] holds is a function or an object. *)
Lemma get_property_string (obj : gmap (list N) (list N)) (n v : list N) :
  get_property obj n = JsString v ↔ obj !! n = Some v.
Proof.
  unfold get_property. destruct (obj !! n) as [w|].
  - split; by intros [= ->].
  - by case_bool_decide.
Qed.

Lemma get_property_truthy (obj : gmap (list N) (list N)) (n : list N) :
  truthy (get_property obj n) = true
  ↔ (∃ s, obj !! n = Some s ∧ s ≠ [])
    ∨ (obj !! n = None ∧ n ∈ Object_prototype).
Proof.
  unfold get_property. destruct (obj !! n) as [[|x s]|]; simpl.
  - split; [done|]. intros [(? & [= <-] & ?)|[? _]]; done.
  - split; [|done]. intros _. left. by eexists.
  - case_bool_decide; simpl.
    + split; [|done]. intros _. by right.
    + split; [done|]. intros [(? & ? & _)|[_ ?]]; done.
Qed.

Lemma get_property_falsy (obj : gmap (list N) (list N)) (n : list N) :
  truthy (get_property obj n) = false
  ↔ obj !! n = Some [] ∨ (obj !! n = None ∧ n ∉ Object_prototype).
Proof.
  unfold get_property. destruct (obj !! n) as [[|x s]|]; simpl.
  - split; [|done]. intros _. by left.
  - split; [done|]. intros [?|[? _]]; done.
  - case_bool_decide; simpl.
    + split; [done|]. intros [?|[_ ?]]; done.
    + split; [|done]. intros _. by right.
Qed.

Lemma attribute_matches_value (c : XmlElement) (n v : list N) :
  attribute_matches c n (Some v) = true ↔ attr c !! n = Some v.
Proof.
  simpl. rewrite <- get_property_string.
  destruct (get_property (attr c) n); simpl; try (split; by intros).
  rewrite bool_decide_eq_true. split; [by intros ->|by intros [= ->]].
Qed.

Lemma attribute_matches_no_value (c : XmlElement) (n : list N) :
  attribute_matches c n None = true
  ↔ (∃ s, attr c !! n = Some s ∧ s ≠ [])
    ∨ (attr c !! n = None ∧ n ∈ Object_prototype).
Proof. apply get_property_truthy. Qed.

(** X10: [childWithAttribute(n, v)] with a value returns the first element
    child whose attribute [n] is [v], the empty string included, and
    [undefined] exactly when no element child has it. *)
Theorem childWithAttribute_value_is_first_equal
    (this : XmlElement) (n v : list N) :
  (∀ c, childWithAttribute this n (Some v) = Some c
        ↔ ∃ i, children this !! i = Some (XmlElementNode c)
               ∧ attr c !! n = Some v
               ∧ ∀ j c', j < i →
                   children this !! j = Some (XmlElementNode c') →
                   attr c' !! n ≠ Some v)
  ∧ (childWithAttribute this n (Some v) = None
     ↔ ∀ i c, children this !! i = Some (XmlElementNode c) →
              attr c !! n ≠ Some v).
Proof.
  rewrite childWithAttribute_first_element. split.
  - intros c. rewrite first_element_Some.
    setoid_rewrite attribute_matches_value.
    setoid_rewrite <- not_true_iff_false.
    by setoid_rewrite attribute_matches_value.
  - rewrite first_element_None. setoid_rewrite <- not_true_iff_false.
    by setoid_rewrite attribute_matches_value.
Qed.

(** X11: [childWithAttribute(n)] without a value returns the first element
    child on which [attr[n]] is truthy: the child has an attribute [n]
    that is not the empty string, or it has no attribute [n] and [n] names
    a member of [Object.prototype], which the read then finds.  It returns
    [undefined] exactly when on every element child the attribute [n] is
    the empty string, or is missing with [n] not such a name.  So for an
    inherited name it returns the first element child that has no empty
    attribute of that name, and for any other name the first one whose
    attribute [n] is a string that is not empty. *)
Theorem childWithAttribute_no_value_is_first_truthy
    (this : XmlElement) (n : list N) :
  (∀ c, childWithAttribute this n None = Some c
        ↔ ∃ i, children this !! i = Some (XmlElementNode c)
               ∧ ((∃ s, attr c !! n = Some s ∧ s ≠ [])
                  ∨ (attr c !! n = None ∧ n ∈ Object_prototype))
               ∧ ∀ j c', j < i →
                   children this !! j = Some (XmlElementNode c') →
                   attr c' !! n = Some []
                   ∨ (attr c' !! n = None ∧ n ∉ Object_prototype))
  ∧ (childWithAttribute this n None = None
     ↔ ∀ i c, children this !! i = Some (XmlElementNode c) →
              attr c !! n = Some []
              ∨ (attr c !! n = None ∧ n ∉ Object_prototype))
  ∧ (n ∈ Object_prototype →
     ∀ c, childWithAttribute this n None = Some c
          ↔ ∃ i, children this !! i = Some (XmlElementNode c)
                 ∧ attr c !! n ≠ Some []
                 ∧ ∀ j c', j < i →
                     children this !! j = Some (XmlElementNode c') →
                     attr c' !! n = Some [])
  ∧ (n ∉ Object_prototype →
     ∀ c, childWithAttribute this n None = Some c
          ↔ ∃ i, children this !! i = Some (XmlElementNode c)
                 ∧ (∃ s, attr c !! n = Some s ∧ s ≠ [])
                 ∧ ∀ j c', j < i →
                     children this !! j = Some (XmlElementNode c') →
                     attr c' !! n = None ∨ attr c' !! n = Some []).
Proof.
  assert (Hf : ∀ c, attribute_matches c n None = false
                    ↔ attr c !! n = Some []
                      ∨ (attr c !! n = None ∧ n ∉ Object_prototype)).
  { intros c. apply get_property_falsy. }
  rewrite childWithAttribute_first_element.
  split; [|split; [|split]].
  - intros c. rewrite first_element_Some.
    setoid_rewrite attribute_matches_no_value. by setoid_rewrite Hf.
  - rewrite first_element_None. by setoid_rewrite Hf.
  - intros Hn c. rewrite first_element_Some.
    setoid_rewrite attribute_matches_no_value. setoid_rewrite Hf.
    split; intros (i & Hi & Hc & Hmin); exists i; (split; [done|]); split.
    + destruct Hc as [(s & -> & Hs)|[-> _]]; [by intros [= ->]|done].
    + intros j c' Hj Hc'. by destruct (Hmin j c' Hj Hc') as [|[_ ?]].
    + destruct (attr c !! n) as [[|x s]|]; [done| |by right].
      left. by eexists.
    + intros j c' Hj Hc'. left. by apply (Hmin j c').
  - intros Hn c. rewrite first_element_Some.
    setoid_rewrite attribute_matches_no_value. setoid_rewrite Hf.
    split; intros (i & Hi & Hc & Hmin); exists i; (split; [done|]); split.
    + by destruct Hc as [|[_ ?]].
    + intros j c' Hj Hc'.
      destruct (Hmin j c' Hj Hc') as [|[? _]]; [by right|by left].
    + by left.
    + intros j c' Hj Hc'.
      destruct (Hmin j c' Hj Hc') as [|]; [by right|by left].
Qed.

(** On [<books><book isbn=''/><book isbn='123'/></books>]: for the
    inherited name [toString] the first [book], which has no attribute of
    that name; for [isbn] the second, the first having it empty. *)
Lemma childWithAttribute_no_value_witness :
  (js "toString" ∈ Object_prototype) ∧ (js "isbn" ∉ Object_prototype)
  ∧ childWithAttribute (doc_element isbn_document) (js "toString") None
    = Some (mk_element "book" [("isbn", "")] "" [])
  ∧ childWithAttribute (doc_element isbn_document) (js "isbn") None
    = Some (mk_element "book" [("isbn", "123")] "" []).
Proof.
  assert (Hin : js "toString" ∈ Object_prototype)
    by (apply (bool_decide_unpack _); vm_compute; exact I).
  assert (Hout : js "isbn" ∉ Object_prototype)
    by (apply (bool_decide_unpack _); vm_compute; exact I).
  split; [exact Hin|]. split; [exact Hout|]. split.
  - apply (proj1 (proj2 (proj2 (childWithAttribute_no_value_is_first_truthy
                                  (doc_element isbn_document)
                                  (js "toString")))) Hin).
    exists 0. split; [reflexivity|]. split; [vm_compute; discriminate|].
    intros j c' Hj. lia.
  - apply (proj2 (proj2 (proj2 (childWithAttribute_no_value_is_first_truthy
                                  (doc_element isbn_document)
                                  (js "isbn")))) Hout).
    exists 1. split; [reflexivity|]. split.
    { exists (js "123"). split; [vm_compute; reflexivity|discriminate]. }
    intros [|j] c' Hj Hc'; [|lia].
    injection Hc' as <-. right. vm_compute. reflexivity.
Defined.

(** ** Paths *)

Lemma split_not_nil (sep : N) (s : list N) : split sep s ≠ [].
Proof.
  destruct s as [|c s]; simpl; [done|].
  destruct (c =? sep)%N; [done|]. by destruct (split sep s).
Qed.

Lemma split_no_separator (sep : N) (s : list N) :
  sep ∉ s → split sep s = [s].
Proof.
  induction s as [|c s IH]; simpl; [done|].
  intros [Hc Hs]%not_elem_of_cons.
  destruct (N.eqb_spec c sep); [done|]. by rewrite IH.
Qed.


Lemma descendantWithPath_from_None (components : list (list N)) :
  descendantWithPath_from None components = None.
Proof. by destruct components. Qed.








(** ** Paths compose *)

Lemma split_app_separator (sep : N) (p q : list N) :
  split sep (p ++ sep :: q) = split sep p ++ split sep q.
Proof.
  induction p as [|c p IH]; simpl.
  { by rewrite N.eqb_refl. }
  destruct (c =? sep)%N; [by rewrite IH|]. rewrite IH.
  pose proof (split_not_nil sep p). by destruct (split sep p).
Qed.

Lemma descendantWithPath_from_app (d : option XmlElement)
    (l1 l2 : list (list N)) :
  descendantWithPath_from d (l1 ++ l2)
  = descendantWithPath_from (descendantWithPath_from d l1) l2.
Proof.
  revert d. induction l1 as [|c l1 IH]; intros d; simpl; [done|].
  destruct d; [apply IH|]. by rewrite descendantWithPath_from_None.
Qed.

(** X12: a path joined by a dot is walked in two legs:
    [descendantWithPath(p + "." + q)] is [descendantWithPath(q)] of the
    element [descendantWithPath(p)] finds, and [undefined] when that
    finds none; a path with no dot is [childNamed]. *)
Theorem descendantWithPath_composes (this : XmlElement) (p q : list N) :
  descendantWithPath this (p ++ ch_dot :: q)
  = (descendantWithPath this p ≫= λ d, descendantWithPath d q)
  ∧ (ch_dot ∉ p → descendantWithPath this p = childNamed this p).
Proof.
  split.
  - unfold descendantWithPath.
    rewrite split_app_separator, descendantWithPath_from_app.
    destruct (descendantWithPath_from (Some this) (split ch_dot p));
      simpl; [done|]. apply descendantWithPath_from_None.
  - intros Hp. unfold descendantWithPath.
    by rewrite split_no_separator.
Qed.

Lemma descendantWithPath_composes_witness :
  (ch_dot ∉ js "author")
  ∧ descendantWithPath book_element (js "author") 
    = childNamed book_element (js "author").
Proof.
  assert (Hp : ch_dot ∉ js "author")
    by (apply (bool_decide_unpack _); vm_compute; exact I).
  split; [exact Hp|].
  exact (proj2 (descendantWithPath_composes book_element (js "author") [])
           Hp).
Defined.

(** ** [eachChild] *)

Lemma element_children_from_lookup (l : list XmlNode) (k i : nat)
    (c : XmlElement) :
  (i, c) ∈ element_children_from k l
  ↔ ∃ j, i = k + j ∧ l !! j = Some (XmlElementNode c).
Proof.
  revert k. induction l as [|x l IH]; intros k; simpl.
  { split; [by intros ?%elem_of_nil|]. by intros (? & _ & ?). }
  assert (Hrest : (i, c) ∈ element_children_from (S k) l
                  ↔ ∃ j, i = k + S j ∧ l !! j = Some (XmlElementNode c)).
  { rewrite IH. by setoid_rewrite Nat.add_succ_r. }
  assert (Hskip : (∀ c', x ≠ XmlElementNode c') →
     (i, c) ∈ element_children_from (S k) l
     ↔ ∃ j, i = k + j ∧ (x :: l) !! j = Some (XmlElementNode c)).
  { intros Hx. rewrite Hrest. split.
    - intros (j & -> & Hj). by exists (S j).
    - intros ([|j] & -> & Hj); simpl in Hj; [|by exists j].
      injection Hj as ->. by destruct (Hx c). }
  destruct x as [c'| | |]; try (by apply Hskip).
  rewrite elem_of_cons, Hrest. split.
  - intros [[= -> ->]|(j & -> & Hj)]; [exists 0|exists (S j)]; split; try lia; done.
  - intros ([|j] & -> & Hj); simpl in Hj.
    + left. injection Hj as ->. f_equal. lia.
    + right. by exists j.
Qed.

Lemma element_children_from_sorted (l : list XmlNode) (k : nat) :
  StronglySorted lt (fst <$> element_children_from k l)
  ∧ Forall (λ i, k ≤ i) (fst <$> element_children_from k l).
Proof.
  revert k. induction l as [|x l IH]; intros k; simpl.
  { split; constructor. }
  destruct (IH (S k)) as [Hs Hk].
  assert (Hle : Forall (λ i, k ≤ i) (fst <$> element_children_from (S k) l)).
  { eapply Forall_impl; [exact Hk|]. simpl. lia. }
  destruct x; try done. simpl. split.
  - constructor; [done|]. eapply Forall_impl; [exact Hk|]. simpl. lia.
  - by constructor.
Qed.

Section EachChildProperties.

Context {St Ctx : Type}.
Variable iterator :
  Ctx → XmlElement → nat → list XmlNode → St → JsValue * St.
Variable context : Ctx.

Lemma eachChild_from_calls (array rest : list XmlNode) (i : nat) (s : St) :
  eachChild_from iterator context array i rest s
  = calls_until_false iterator context array
      (element_children_from i rest) s.
Proof.
  revert i s. induction rest as [|child rest IH]; intros i s; simpl;
    [done|].
  destruct child; simpl; try apply IH.
  destruct (iterator context element i array s) as [r s'].
  destruct r as [| |[]| | |]; simpl; try apply IH. done.
Qed.

Lemma calls_until_false_app (array : list XmlNode)
    (pre rest : list (nat * XmlElement)) (s : St) :
  (∀ pre1 j x pre2, pre = pre1 ++ (j, x) :: pre2 →
     fst (iterator context x j array
            (foldl (λ s ic, snd (iterator context (snd ic) (fst ic) array s))
               s pre1))
     ≠ JsBoolean false) →
  calls_until_false iterator context array (pre ++ rest) s
  = calls_until_false iterator context array rest
      (foldl (λ s ic, snd (iterator context (snd ic) (fst ic) array s))
         s pre).
Proof.
  revert s. induction pre as [|[j x] pre IH]; intros s Hpre; [done|].
  pose proof (Hpre [] j x pre eq_refl) as Hx. simpl in *.
  destruct (iterator context x j array s) as [r s'] eqn:Hcall.
  simpl in Hx.
  assert (Hgo : calls_until_false iterator context array (pre ++ rest) s'
                = calls_until_false iterator context array rest
                    (foldl (λ s ic,
                       snd (iterator context (snd ic) (fst ic) array s))
                       s' pre)).
  { apply IH. intros pre1 j' x' pre2 ->.
    specialize (Hpre ((j, x) :: pre1) j' x' pre2 eq_refl).
    simpl in Hpre. by rewrite Hcall in Hpre. }
  destruct r as [| |[]| | |]; try exact Hgo. done.
Qed.

Lemma calls_never_false (array : list XmlNode)
    (calls : list (nat * XmlElement)) (s : St) :
  (∀ c i s, fst (iterator context c i array s) ≠ JsBoolean false) →
  calls_until_false iterator context array calls s
  = foldl (λ s ic, snd (iterator context (snd ic) (fst ic) array s))
      s calls.
Proof.
  intros Hnf. revert s. induction calls as [|[i c] calls IH]; intros s;
    simpl; [done|].
  specialize (Hnf c i s).
  destruct (iterator context c i array s) as [r s']. simpl in *.
  destruct r as [| |[]| | |]; simpl; try apply IH. done.
Qed.

End EachChildProperties.

(** C10: [eachChild] calls the iterator on the element children alone,
    each with its index in [children], by rising index, and stops after
    the first call whose result is the boolean [false]: when the calls on
    the element children before one return something else and the call
    on that one returns [false], the loop ends in the state that call
    left, with no call on a later child.  When no call returns [false],
    whatever else the calls return, every element child is visited. *)
Theorem eachChild_visits_elements_until_false {St Ctx : Type}
    (iterator : Ctx → XmlElement → nat → list XmlNode → St → JsValue * St)
    (context : Ctx) (this : XmlElement) (s : St) :
  eachChild iterator context this s
  = calls_until_false iterator context (children this)
      (element_children this) s
  ∧ (∀ i c, (i, c) ∈ element_children this
            ↔ children this !! i = Some (XmlElementNode c))
  ∧ StronglySorted lt (fst <$> element_children this)
  ∧ ((∀ c i s,
        fst (iterator context c i (children this) s) ≠ JsBoolean false) →
     eachChild iterator context this s
     = foldl (λ s ic,
                snd (iterator context (snd ic) (fst ic) (children this) s))
         s (element_children this))
  ∧ (∀ pre i c post,
       element_children this = pre ++ (i, c) :: post →
       (∀ pre1 j x pre2, pre = pre1 ++ (j, x) :: pre2 →
          fst (iterator context x j (children this)
                 (foldl (λ s ic,
                    snd (iterator context (snd ic) (fst ic)
                           (children this) s))
                    s pre1))
          ≠ JsBoolean false) →
       fst (iterator context c i (children this)
              (foldl (λ s ic,
                 snd (iterator context (snd ic) (fst ic) (children this) s))
                 s pre))
       = JsBoolean false →
       eachChild iterator context this s
       = snd (iterator context c i (children this)
                (foldl (λ s ic,
                   snd (iterator context (snd ic) (fst ic)
                          (children this) s))
                   s pre)))
  ∧ ((∀ pre1 j x pre2, element_children this = pre1 ++ (j, x) :: pre2 →
        fst (iterator context x j (children this)
               (foldl (λ s ic,
                  snd (iterator context (snd ic) (fst ic)
                         (children this) s))
                  s pre1))
        ≠ JsBoolean false) →
     eachChild iterator context this s
     = foldl (λ s ic,
                snd (iterator context (snd ic) (fst ic) (children this) s))
         s (element_children this)).
Proof.
  assert (H : eachChild iterator context this s
              = calls_until_false iterator context (children this)
                  (element_children this) s)
    by apply eachChild_from_calls.
  split; [done|]. split; [|split; [|split; [|split]]].
  - intros i c. unfold element_children.
    rewrite element_children_from_lookup. split; [by intros (j & -> & ?)|].
    intros Hi. by exists i.
  - apply element_children_from_sorted.
  - intros Hnf. rewrite H. by apply calls_never_false.
  - intros pre i c post Hsplit Hpre Hstop. rewrite H, Hsplit.
    rewrite calls_until_false_app by exact Hpre. simpl.
    destruct (iterator context c i (children this) _) as [r s'].
    simpl in *. by rewrite Hstop.
  - intros Hpre. rewrite H.
    rewrite <- (app_nil_r (element_children this)) at 1.
    rewrite calls_until_false_app; [done|].
    intros pre1 j x pre2 Heq. by apply (Hpre pre1 j x pre2).
Qed.

(** On [<a>x<b/><!--c--><c/><![CDATA[y]]><d/></a>] an iterator that
    returns the number 0 sees the three element children, at indices 1, 3
    and 5; one that returns [undefined] at index 1 and [false] at index 3
    sees the first two and not the third. *)
Lemma eachChild_witness :
  (∀ c i s,
     fst (noting (JsNumber 0) tt c i (children five_children) s)
     ≠ JsBoolean false)
  ∧ eachChild (noting (JsNumber 0)) tt five_children [] = [1; 3; 5]
  ∧ element_children five_children
    = [(1, mk_element "b" [] "" [])]
      ++ (3, mk_element "c" [] "" []) :: [(5, mk_element "d" [] "" [])]
  ∧ fst (refusing 3 tt (mk_element "b" [] "" []) 1
           (children five_children) [])
    = JsUndefined
  ∧ fst (refusing 3 tt (mk_element "c" [] "" []) 3
           (children five_children) [1])
    = JsBoolean false
  ∧ eachChild (refusing 3) tt five_children [] = [1; 3].
Proof.
  assert (H : ∀ c i s,
    fst (noting (JsNumber 0) tt c i (children five_children) s)
    ≠ JsBoolean false) by done.
  split; [exact H|]. split.
  { rewrite (proj1 (proj2 (proj2 (proj2
               (eachChild_visits_elements_until_false
                  (noting (JsNumber 0)) tt five_children [])))) H).
    vm_compute. reflexivity. }
  assert (Hsplit : element_children five_children
    = [(1, mk_element "b" [] "" [])]
      ++ (3, mk_element "c" [] "" []) :: [(5, mk_element "d" [] "" [])])
    by (vm_compute; reflexivity).
  assert (Hpre : ∀ pre1 j x pre2,
    [(1, mk_element "b" [] "" [])] = pre1 ++ (j, x) :: pre2 →
    fst (refusing 3 tt x j (children five_children)
           (foldl (λ s ic,
              snd (refusing 3 tt (snd ic) (fst ic)
                     (children five_children) s))
              [] pre1))
    ≠ JsBoolean false).
  { clear H Hsplit. intros [|? [|??]] j x pre2 Heq; simpl in Heq;
      simplify_eq.
    vm_compute. discriminate. }
  split; [exact Hsplit|]. split; [reflexivity|]. split; [reflexivity|].
  rewrite (proj1 (proj2 (proj2 (proj2 (proj2
             (eachChild_visits_elements_until_false
                (refusing 3) tt five_children [])))))
             [(1, mk_element "b" [] "" [])] 3 (mk_element "c" [] "" [])
             [(5, mk_element "d" [] "" [])] Hsplit Hpre eq_refl).
  reflexivity.
Defined.

(** Only [false] stops the loop. *)
Example eachChild_stops_on_false_only :
  eachChild (noting (JsBoolean false)) tt five_children [] = [1]
  ∧ eachChild (noting JsUndefined) tt five_children [] = [1; 3; 5]
  ∧ eachChild (noting (JsString [])) tt five_children [] = [1; 3; 5]
  ∧ eachChild (noting JsNull) tt five_children [] = [1; 3; 5]
  ∧ eachChild (noting (JsBoolean true)) tt five_children [] = [1; 3; 5]
  ∧ eachChild (noting (JsNumber 0)) tt five_children [] = [1; 3; 5]
  ∧ eachChild (noting JsObject) tt five_children [] = [1; 3; 5].
Proof. vm_compute. repeat split; reflexivity. Qed.

(** ** Induction on the tree *)

Lemma XmlElement_nested_ind (P : XmlElement → Prop) :
  (∀ e,
     Forall (λ c, match c with XmlElementNode x => P x | _ => True end)
       (children e) →
     P e) →
  ∀ e, P e.
Proof.
  intros H. fix F 1. intros [n a v ch f l li co po st]. apply H. simpl.
  clear -F. induction ch as [|x ch IH]; constructor.
  - destruct x as [e| | |]; [apply F|exact I..].
  - exact IH.
Qed.

Lemma XmlElement_children_ind (P : XmlElement → Prop) :
  (∀ e, (∀ i c, children e !! i = Some (XmlElementNode c) → P c) → P e) →
  ∀ e, P e.
Proof.
  intros H. apply XmlElement_nested_ind. intros e He. apply H.
  intros i c Hi. by apply (Forall_lookup_1 _ _ _ _ He Hi).
Qed.

(** ** [descendantsNamed] *)

Lemma descendantsNamed_from_flat_map (rest : list XmlNode) (n : list N)
    (matches : list XmlElement) :
  descendantsNamed_from (λ element, descendantsNamed element n) rest n
    matches
  = matches ++ flat_map (descendants_through n) rest.
Proof.
  revert matches. induction rest as [|x rest IH]; intros matches; simpl.
  { by rewrite app_nil_r. }
  destruct x; simpl; try apply IH. rewrite IH.
  case_decide; by rewrite <- ?app_assoc.
Qed.

Lemma descendantsNamed_flat_map (this : XmlElement) (n : list N) :
  descendantsNamed this n
  = flat_map (descendants_through n) (children this).
Proof.
  destruct this. simpl. by rewrite descendantsNamed_from_flat_map.
Qed.

Example descendantsNamed_ex :
  length (descendantsNamed
    (mk_element "library" [] ""
       [XmlElementNode (mk_element "section" [] ""
          [XmlElementNode (mk_element "books" [] ""
             [XmlElementNode (mk_element "book" [] "" []);
              XmlElementNode (mk_element "book" [] "" [])])]);
        XmlElementNode (mk_element "book" [] "" [])])
    (js "book")) = 3.
Proof. vm_compute. reflexivity. Qed.

(** X13: [descendantsNamed(n)] holds exactly the elements called [n] that
    lie below [this], at any depth: the children, their children and so
    on, [this] itself left out. *)
Theorem descendantsNamed_are_the_named_descendants
    (this : XmlElement) (n : list N) (e : XmlElement) :
  e ∈ descendantsNamed this n
  ↔ ∃ r, r ≠ [] ∧ elem_at r this = Some e ∧ name e = n.
Proof.
  revert e. induction this as [this IH] using XmlElement_children_ind.
  intros e. rewrite descendantsNamed_flat_map. split.
  - intros (child & Hchild & He)%list_elem_of_In%in_flat_map.
    apply list_elem_of_In, list_elem_of_lookup in Hchild as [i Hi].
    apply list_elem_of_In in He.
    destruct child as [c| | |]; simpl in He;
      try by apply elem_of_nil in He.
    apply elem_of_app in He as [He|He].
    + case_decide; [|by apply elem_of_nil in He].
      apply list_elem_of_singleton in He as ->.
      exists [i]. simpl. by rewrite Hi.
    + apply (IH i c Hi) in He as (r & Hr & He & Hn).
      exists (i :: r). simpl. by rewrite Hi.
  - intros ([|i r] & Hne & Hr & Hn); [done|]. simpl in Hr.
    destruct (children this !! i) as [[c| | |]|] eqn:Hi; try done.
    apply list_elem_of_In, in_flat_map. exists (XmlElementNode c).
    split; [by apply list_elem_of_In, list_elem_of_lookup; exists i|].
    apply list_elem_of_In. simpl. apply elem_of_app.
    destruct r as [|j r].
    + left. simpl in Hr. injection Hr as ->.
      rewrite decide_True by done. by apply list_elem_of_singleton.
    + right. apply (IH i c Hi). by exists (j :: r).
Qed.

Lemma childrenNamed_from_cons_element (c : XmlElement)
    (rest : list XmlNode) (n : list N) :
  childrenNamed_from (XmlElementNode c :: rest) n []
  = (if decide (name c = n) then [c] else [])
    ++ childrenNamed_from rest n [].
Proof. simpl. case_decide; [|done]. by rewrite childrenNamed_from_app. Qed.

(** X14: the matches of [childrenNamed(n)] all occur in
    [descendantsNamed(n)], in the same order; and when no child of [this]
    has element children of its own the two results are the same. *)
Theorem childrenNamed_within_descendantsNamed
    (this : XmlElement) (n : list N) :
  sublist (childrenNamed this n) (descendantsNamed this n)
  ∧ ((∀ i c, children this !! i = Some (XmlElementNode c) →
             ∀ j c', children c !! j ≠ Some (XmlElementNode c')) →
     descendantsNamed this n = childrenNamed this n).
Proof.
  rewrite descendantsNamed_flat_map. unfold childrenNamed. split.
  - induction (children this) as [|x l IH]; [done|].
    destruct x as [c| | |]; try exact IH.
    rewrite childrenNamed_from_cons_element. simpl.
    apply sublist_app; [|exact IH]. apply sublist_inserts_r. done.
  - induction (children this) as [|x l IH]; intros Hflat; [done|].
    assert (Hl : flat_map (descendants_through n) l
                 = childrenNamed_from l n []).
    { apply IH. intros i c Hi. by apply (Hflat (S i)). }
    destruct x as [c| | |]; try exact Hl.
    rewrite childrenNamed_from_cons_element. simpl. rewrite Hl.
    assert (Hc : descendantsNamed c n = []).
    { rewrite descendantsNamed_flat_map.
      pose proof (Hflat 0 c eq_refl) as Hnone.
      induction (children c) as [|y l' IH']; [done|].
      destruct y as [c'| | |]; simpl.
      - by destruct (Hnone 0 c').
      - apply IH'. intros j c'. apply (Hnone (S j)).
      - apply IH'. intros j c'. apply (Hnone (S j)).
      - apply IH'. intros j c'. apply (Hnone (S j)). }
    by rewrite Hc, app_nil_r.
Qed.

Lemma childrenNamed_within_descendantsNamed_witness :
  (∀ i c, children five_children !! i = Some (XmlElementNode c) →
          ∀ j c', children c !! j ≠ Some (XmlElementNode c'))
  ∧ descendantsNamed five_children (js "c")
    = childrenNamed five_children (js "c").
Proof.
  assert (H : ∀ i c, children five_children !! i = Some (XmlElementNode c) →
                     ∀ j c', children c !! j ≠ Some (XmlElementNode c')).
  { intros i c Hi j c'.
    do 6 (destruct i as [|i]; [simpl in Hi; try discriminate Hi;
                               injection Hi as <-; by destruct j|]).
    discriminate Hi. }
  split; [exact H|].
  exact (proj2 (childrenNamed_within_descendantsNamed five_children
                  (js "c")) H).
Defined.

(** ** Queries on a parsed document *)

Lemma childNamed_is_child (e c : XmlElement) (n : list N) :
  childNamed e n = Some c → ∃ i, children e !! i = Some (XmlElementNode c).
Proof.
  rewrite childNamed_first_element. intros (i & Hi & _)%first_element_Some.
  by exists i.
Qed.

Lemma descendantWithPath_from_is_in_tree (e d : XmlElement)
    (components : list (list N)) :
  descendantWithPath_from (Some e) components = Some d →
  ∃ r, elem_at r e = Some d.
Proof.
  revert e. induction components as [|c components IH]; intros e; simpl.
  { intros [= ->]. by exists []. }
  destruct (childNamed e c) as [x|] eqn:Hx;
    [|by rewrite descendantWithPath_from_None].
  intros (r & Hr)%IH. apply childNamed_is_child in Hx as [i Hi].
  exists (i :: r). simpl. by rewrite Hi.
Qed.

(** X15: on a parsed document, [valueWithPath] of a path with no [@]
    that resolves is the text of the direct Text and CData children of
    the element it resolves to; an element [descendantWithPath] finds is
    an element of the document's tree. *)
Theorem valueWithPath_is_direct_text_of_the_descendant
    (sax_parser : SAXParser)
    (sax_write : list N → list (SAXParser * SaxEvent))
    (xml : list N) (doc : XmlDocument) (path : list N) (d : XmlElement) :
  XmlDocument_constructor sax_parser sax_write xml = inr doc →
  ch_at ∉ path →
  descendantWithPath (doc_element doc) path = Some d →
  valueWithPath (doc_element doc) path
  = JsString (direct_content (children d))
  ∧ ∃ r, elem_at r (doc_element doc) = Some d.
Proof.
  intros Hdoc Hat Hd.
  destruct (descendantWithPath_from_is_in_tree _ _ _ Hd) as [r Hr].
  split; [|by exists r].
  unfold valueWithPath. rewrite split_no_separator by done. simpl.
  rewrite Hd. f_equal.
  by apply (constructor_all_elements _ val_is_direct_content_invariant
              _ _ _ _ Hdoc r d).
Qed.

Lemma valueWithPath_direct_text_witness :
  XmlDocument_constructor (parser_at 0 0 0 0) (delivering mixed_events)
    (js "<a>t1<b>in</b><!--c--><![CDATA[t2]]></a>")
  = inr mixed_document
  ∧ (ch_at ∉ js "b")
  ∧ valueWithPath (doc_element mixed_document) (js "b")
    = JsString (js "in").
Proof.
  assert (H1 : XmlDocument_constructor (parser_at 0 0 0 0)
                 (delivering mixed_events)
                 (js "<a>t1<b>in</b><!--c--><![CDATA[t2]]></a>")
               = inr mixed_document) by (vm_compute; reflexivity).
  assert (Hat : ch_at ∉ js "b")
    by (apply (bool_decide_unpack _); vm_compute; exact I).
  split; [exact H1|]. split; [exact Hat|].
  rewrite (proj1 (valueWithPath_is_direct_text_of_the_descendant _ _ _ _
                    (js "b")
                    (mk_element "b" [] "in" [XmlTextNode (js "in")])
                    H1 Hat eq_refl)).
  reflexivity.
Defined.

(** ** Rendering an element *)

Example toString_html_ex :
  XmlElement_toString sorted_keys
    (mk_element "div" [] ""
       [XmlElementNode (mk_element "br" [] "" []);
        XmlElementNode (mk_element "custom" [] "" [])])
    (Some html_on)
  = js "<div>" ++ [10%N] ++ js "  <br/>" ++ [10%N]
    ++ js "  <custom></custom>" ++ [10%N] ++ js "</div>".
Proof. vm_compute. reflexivity. Qed.

Example toString_compressed_ex :
  XmlElement_toString sorted_keys
    (mk_element "root" [] ""
       [XmlElementNode (mk_element "command" [] "< >"
          [XmlTextNode (js "< >")])])
    (Some compressed_on)
  = js "<root><command>&lt; &gt;</command></root>".
Proof. vm_compute. reflexivity. Qed.

Section SerializerProperties.

Variable own_keys : gmap (list N) (list N) → list (list N).

Lemma toStringWithIndent_each_flat (options : option XmlStringOptions)
    (rest : list XmlNode) (s : list N) :
  Forall (λ c, match c with
               | XmlElementNode x =>
                   toStringWithIndent own_keys x [] options
                   = flat_xml own_keys options x
               | _ => True
               end) rest →
  toStringWithIndent_each
    (λ e, toStringWithIndent own_keys e [] options) [] [] options rest s
  = s ++ flat_map (λ child,
                     match child with
                     | XmlElementNode c => flat_xml own_keys options c
                     | _ => leaf_toString child options
                     end) rest.
Proof.
  intros H. revert s. induction H as [|child rest Hc _ IH]; intros s; simpl.
  { by rewrite app_nil_r. }
  rewrite IH, <- app_assoc, app_nil_r. f_equal. f_equal.
  by destruct child.
Qed.

(** X16: with [compressed] on, [toString] of an element is its markup
    with nothing added: the open tag with the attributes, the renderings
    of the children one after the other, and the close tag, or the empty
    tag when there are no children; no linebreak and no indent is put
    in. *)
Theorem compressed_toString_is_flat (options : option XmlStringOptions)
    (e : XmlElement) :
  truthy_flag options compressed = true →
  XmlElement_toString own_keys e options = flat_xml own_keys options e.
Proof.
  intros Hc. unfold XmlElement_toString.
  induction e as [e IH] using XmlElement_nested_ind.
  destruct e as [n a v ch fc lc li co po st]. cbn [children] in IH.
  cbn [toStringWithIndent flat_xml]. rewrite Hc. rewrite !app_nil_l.
  destruct ch as [|c1 [|c2 ch]].
  - cbn [length Nat.eqb andb negb]. unfold empty_tag.
    rewrite <- !app_assoc. by repeat case_match.
  - apply Forall_cons in IH as [IH1 _].
    destruct c1 as [x| | |];
      cbn [length Nat.eqb andb negb lookup list_lookup from_option
           is_element flat_map toStringWithIndent_each leaf_toString];
      rewrite ?app_nil_r, <- ?app_assoc; try done.
    by rewrite IH1.
  - cbn [length Nat.eqb andb negb].
    rewrite (toStringWithIndent_each_flat options _ _ IH).
    by rewrite <- !app_assoc.
Qed.

Lemma formatText_same_flags (text : list N)
    (o1 o2 : option XmlStringOptions) :
  truthy_flag o1 trimmed = truthy_flag o2 trimmed →
  truthy_flag o1 preserveWhitespace = truthy_flag o2 preserveWhitespace →
  formatText text o1 = formatText text o2.
Proof. intros Ht Hp. unfold formatText. by rewrite Ht, Hp. Qed.

Lemma leaf_toString_same_flags (n : XmlNode)
    (o1 o2 : option XmlStringOptions) :
  truthy_flag o1 trimmed = truthy_flag o2 trimmed →
  truthy_flag o1 preserveWhitespace = truthy_flag o2 preserveWhitespace →
  leaf_toString n o1 = leaf_toString n o2.
Proof.
  intros Ht Hp. destruct n; simpl; try done;
    unfold XmlTextNode_toString, XmlCDataNode_toString,
      XmlCommentNode_toString;
    by rewrite (formatText_same_flags _ o1 o2).
Qed.

Lemma toStringWithIndent_each_same (render1 render2 : XmlElement → list N)
    (childIndent linebreak : list N) (o1 o2 : option XmlStringOptions)
    (rest : list XmlNode) (s : list N) :
  truthy_flag o1 trimmed = truthy_flag o2 trimmed →
  truthy_flag o1 preserveWhitespace = truthy_flag o2 preserveWhitespace →
  (∀ i c, rest !! i = Some (XmlElementNode c) → render1 c = render2 c) →
  toStringWithIndent_each render1 childIndent linebreak o1 rest s
  = toStringWithIndent_each render2 childIndent linebreak o2 rest s.
Proof.
  intros Ht Hp. revert s. induction rest as [|child rest IH]; intros s H;
    [done|]. simpl.
  rewrite IH by (intros i c Hi; by apply (H (S i))).
  do 3 f_equal. destruct child as [c| | |];
    [by apply (H 0)|by rewrite (leaf_toString_same_flags _ o1 o2)..].
Qed.

(** X17: [html] matters to elements without children alone, and of those
    to the ones whose name is not on [whiteList]: when every element of a
    tree that has no children has a name on the list, two sets of options
    that agree on [compressed], [trimmed] and [preserveWhitespace] give
    the same rendering. *)
Theorem html_only_changes_childless_elements
    (o1 o2 : option XmlStringOptions) (e : XmlElement) (indent : list N) :
  truthy_flag o1 compressed = truthy_flag o2 compressed →
  truthy_flag o1 trimmed = truthy_flag o2 trimmed →
  truthy_flag o1 preserveWhitespace = truthy_flag o2 preserveWhitespace →
  (∀ r x, elem_at r e = Some x → children x = [] → name x ∈ whiteList) →
  toStringWithIndent own_keys e indent o1
  = toStringWithIndent own_keys e indent o2.
Proof.
  intros Hc Ht Hp. revert indent.
  induction e as [e IH] using XmlElement_children_ind. intros indent He.
  assert (Hsub : ∀ i c, children e !! i = Some (XmlElementNode c) →
            ∀ ind, toStringWithIndent own_keys c ind o1
                   = toStringWithIndent own_keys c ind o2).
  { intros i c Hi ind. apply (IH i c Hi). intros r x Hr.
    apply (He (i :: r)). simpl. by rewrite Hi. }
  pose proof (He [] e eq_refl) as Hroot.
  destruct e as [n a v ch fc lc li co po st]. cbn [children name] in *.
  cbn [toStringWithIndent]. rewrite Hc.
  destruct (_ && _) eqn:Hone.
  { do 3 f_equal. destruct (ch !! 0); simpl; [|done].
    by rewrite (leaf_toString_same_flags _ o1 o2). }
  destruct ch as [|c1 ch].
  - cbn [length Nat.eqb negb]. rewrite (bool_decide_eq_true_2 _ (Hroot eq_refl)).
    by destruct (truthy_flag o1 html), (truthy_flag o2 html).
  - cbn [length Nat.eqb negb]. f_equal.
    apply toStringWithIndent_each_same; try done.
    intros i c Hi. by apply (Hsub i).
Qed.

End SerializerProperties.

Lemma compressed_toString_witness :
  truthy_flag (Some compressed_on) compressed = true
  ∧ XmlElement_toString sorted_keys (doc_element mixed_document)
      (Some compressed_on)
    = flat_xml sorted_keys (Some compressed_on) (doc_element mixed_document).
Proof.
  split; [reflexivity|].
  exact (compressed_toString_is_flat sorted_keys (Some compressed_on)
           (doc_element mixed_document) eq_refl).
Defined.

(** [<div><br/></div>]: its one element without children, [br], is on
    the list. *)
Lemma html_only_changes_witness :
  elem_at [0] div_br = Some (mk_element "br" [] "" [])
  ∧ children (mk_element "br" [] "" []) = []
  ∧ (∀ r x, elem_at r div_br = Some x →
            children x = [] → name x ∈ whiteList)
  ∧ toStringWithIndent sorted_keys div_br [] (Some html_on)
    = toStringWithIndent sorted_keys div_br [] None.
Proof.
  assert (Hbr : name (mk_element "br" [] "" []) ∈ whiteList)
    by (apply (bool_decide_unpack _); vm_compute; exact I).
  assert (H : ∀ r x, elem_at r div_br = Some x →
                     children x = [] → name x ∈ whiteList).
  { intros r x Hr Hx.
    unfold div_br in Hr. unfold mk_element at 1 in Hr.
    destruct r as [|i r]; simpl in Hr.
    { injection Hr as <-. discriminate Hx. }
    destruct i as [|i]; simpl in Hr; [|discriminate Hr].
    destruct r as [|j r]; simpl in Hr.
    { injection Hr as <-. exact Hbr. }
    destruct j as [|j]; simpl in Hr; discriminate Hr. }
  split; [reflexivity|]. split; [reflexivity|]. split; [exact H|].
  exact (html_only_changes_childless_elements sorted_keys (Some html_on)
           None div_br [] eq_refl eq_refl eq_refl H).
Defined.
